(** * saaspodcast: playback state, user gateway, ranking, debounce, time format

    A shallow embedding of

    - [src/lib/formatTime.ts]            ([formatTime]),
    - the debounce hook                  ([useDebounce]),
    - [src/providers/AudioProvider.tsx]  ([AudioProvider], [useAudio]),
    - the user handlers of the document store ([getUserById],
      [getTopUserByPodcastCount], [createUser], [updateUser], [deleteUser]),

    followed by the properties the specification states about them.

    Conventions.  A JavaScript [number] that the code only uses as a count or
    a whole quantity is a [Z]; the duration given to [formatTime] is a double,
    with the rounding of its arithmetic (module [Js]).  A store table is a
    finite map from the store-issued [_id] to the remaining fields of the
    document, so a document as the handlers see it is a pair
    [(_id, fields)]. *)

From Stdlib Require Import QArith Qround ZArith String DecimalString Lia.
From Stdlib Require Import Sorting.Sorted Sorting.Permutation.
From Stdlib Require Import Ascii DecimalPos DecimalZ.
From stdpp Require Import gmap strings list fin_maps.

Close Scope Q_scope.
Open Scope Z_scope.

(* ===================================================================== *)
(** * Part I: the program                                                 *)
(* ===================================================================== *)

(** ** JavaScript primitives the sources rely on

    A [number] is an IEEE 754 double.  Every finite double is a whole
    multiple of 2^-1074, so a finite number is held as its count of such
    units, one second being [unit] units; the two zeros are one value, which
    no operation used here tells apart.  Arithmetic rounds to the nearest
    double, ties to the even mantissa, as the language prescribes. *)

Module Js.

Definition unit : Z := 2 ^ 1074.

Inductive number : Type :=
  | Num (t : Z)          (* the finite double [t * 2^-1074] *)
  | PosInfinity
  | NegInfinity
  | NaN.

(** The doubles among the counts of units: a mantissa of at most 53 bits,
    shifted left. *)
Definition is_double (t : Z) : Prop :=
  ∃ S f : Z, 0 ≤ f ∧ Z.abs S < 2 ^ 53 ∧ t = S * 2 ^ f.

(** The value of a finite number, in seconds. *)
Definition value (t : Z) : Q := t # Z.to_pos unit.

(** The integer nearest to [N / D], the even one of two equally near. *)
Definition round_half_even (N D : Z) : Z :=
  let k := N / D in
  let r := N mod D in
  if 2 * r <? D then k
  else if D <? 2 * r then k + 1
  else if Z.even k then k else k + 1.

(** The double nearest to [N / D] units, for [0 ≤ N] and [0 < D]: the
    quotient is rounded at the spacing that leaves 53 bits, and never below
    one unit. *)
Definition round_ratio (N D : Z) : Z :=
  let e := Z.max (Z.log2 (N / D) - 52) 0 in
  round_half_even N (D * 2 ^ e) * 2 ^ e.

(** 2^1024 seconds, which no finite double reaches. *)
Definition huge : Z := 2 ^ 2098.

Definition round_number (N D : Z) : number :=
  if 0 <=? N
  then (let v := round_ratio N D in if v <? huge then Num v else PosInfinity)
  else (let v := round_ratio (- N) D in if v <? huge then Num (- v) else NegInfinity).

(** A numeric literal, or any rational read as a number. *)
Definition literal (q : Q) : number := round_number (Qnum q * unit) (Z.pos (Qden q)).

(** [x / d] for a whole divisor [d > 0]. *)
Definition div (x : number) (d : Z) : number :=
  match x with
  | Num t => round_number t d
  | other => other
  end.

(** [x % d] for a whole divisor [d > 0]: exact, with the sign of [x]. *)
Definition rem (x : number) (d : Z) : number :=
  match x with
  | Num t => Num (Z.rem t (d * unit))
  | _ => NaN
  end.

(** The results of [Math.floor]: whole numbers and the values that are not
    finite. *)
Inductive integral : Type :=
  | Int (z : Z)
  | IntPosInfinity
  | IntNegInfinity
  | IntNaN.

Definition floor (x : number) : integral :=
  match x with
  | Num t => Int (t / unit)
  | PosInfinity => IntPosInfinity
  | NegInfinity => IntNegInfinity
  | NaN => IntNaN
  end.

(** [x < c] for a whole [c]. *)
Definition lt (x : integral) (c : Z) : bool :=
  match x with
  | Int z => z <? c
  | IntNegInfinity => true
  | _ => false
  end.

(** All decimal digits of a whole number, with a minus sign below zero. *)
Definition digits (n : Z) : string := NilZero.string_of_int (Z.to_int n).

(** [`${x}`] prints the decimal with the fewest significant digits that reads
    back as [x], in exponent notation from 10^21 on.  Below 2^53 that decimal
    has all the digits of the whole number. *)
Definition reads_back (c z : Z) : bool := round_ratio (c * unit) 1 =? z * unit.

Definition shortest (z : Z) : Z :=
  let n := Z.of_nat (String.length (digits z)) in
  let candidate (k : Z) := let u := 10 ^ (n - k) in round_half_even z u * u in
  match List.find (λ k, reads_back (candidate k) z) (Z.of_nat <$> seq 1 17) with
  | Some k => candidate k
  | None => z
  end.

Fixpoint strip_zeros (rev_digits : list ascii) : list ascii :=
  match rev_digits with
  | "0"%char :: l => strip_zeros l
  | l => l
  end.

Definition significant (c : Z) : string :=
  string_of_list_ascii (List.rev (strip_zeros (List.rev (list_ascii_of_string (digits c))))).

Definition render (c : Z) : string :=
  if c <? 10 ^ 21 then digits c
  else
    let n := Z.of_nat (String.length (digits c)) in
    match significant c with
    | String d EmptyString => String d ("e+" ++ digits (n - 1))
    | String d more => String d ("." ++ more ++ "e+" ++ digits (n - 1))
    | EmptyString => digits c
    end%string.

Definition toString (x : integral) : string :=
  match x with
  | Int z =>
      if Z.abs z <? 2 ^ 53 then digits z
      else if z <? 0 then ("-" ++ render (shortest (- z)))%string
      else render (shortest z)
  | IntPosInfinity => "Infinity"
  | IntNegInfinity => "-Infinity"
  | IntNaN => "NaN"
  end.

Section Sort.
Context {A : Type} (compareFn : A → A → Z).

(** [Array.prototype.sort(compareFn)] is stable: [a] is placed before [b]
    when [compareFn a b < 0], after it when [compareFn a b > 0], and the
    two keep their order when it is [0].  An insertion sort that walks the
    array from its end computes that arrangement. *)
Fixpoint insert (x : A) (l : list A) : list A :=
  match l with
  | [] => [x]
  | y :: l' => if compareFn x y <=? 0 then x :: y :: l' else y :: insert x l'
  end.

Definition sort (l : list A) : list A := foldr insert [] l.

End Sort.

End Js.

(** ** [src/lib/formatTime.ts] *)

Module FormatTime.

Definition formatTime (seconds : Js.number) : string :=
  let minutes := Js.floor (Js.div seconds 60) in
  let remainingSeconds := Js.floor (Js.rem seconds 60) in
  let formattedSeconds :=
    if Js.lt remainingSeconds 10
    then ("0" ++ Js.toString remainingSeconds)%string
    else Js.toString remainingSeconds in
  (Js.toString minutes ++ ":" ++ formattedSeconds)%string.

(** Below [limit] seconds the quotient by 60 is rounded at a spacing that
    cannot reach the next whole minute; [first_wrong] is the first duration
    whose minutes come out one too many. *)
Definition limit : Z := 60 * 2 ^ 50.
Definition first_wrong : Z := 60 * 2 ^ 50 + 56.

End FormatTime.

(** ** The debounce hook

    The body of [useDebounce] runs at every render of the component that
    calls it.  [mount] is its first run, [render] a later run, [elapse] the
    passing of time with the timer callback, [unmount] the teardown; what the
    caller receives is [useDebounce]. *)

Module Debounce.

Section Hook.
Context {T : Type} `{EqDecision T}.

(** One mounted instance of the hook.  [value] and [delay] are the
    dependencies seen by the last render, [debouncedValue] is the state cell,
    and [timeout] is the timer armed by the effect and not yet fired or
    cleared: the value its callback closed over and the milliseconds left. *)
Record hook : Type := Hook {
  value : T;
  delay : nat;
  debouncedValue : T;
  timeout : option (T * nat)
}.

(** [setTimeout(() => setDebouncedValue(value), delay)]. *)
Definition effect (v : T) (d : nat) (h : hook) : hook :=
  Hook v d (debouncedValue h) (Some (v, d)).

(** The function the effect returns: [clearTimeout(timeout)]. *)
Definition cleanup (h : hook) : hook :=
  Hook (value h) (delay h) (debouncedValue h) None.

(** The delay a caller gets when it passes none ([delay = 500]). *)
Definition default_delay : nat := 500.

(** First render: [useState(value)], then the effect runs. *)
Definition mount (v : T) (d : nat) : hook :=
  effect v d (Hook v d v None).

(** A later render with arguments [v] and [d]: the effect is run again, after
    the clean-up of its previous run, only when [[value, delay]] changed. *)
Definition render (v : T) (d : nat) (h : hook) : hook :=
  if decide (v = value h ∧ d = delay h) then h else effect v d (cleanup h).

(** [ms] milliseconds pass: a timer that is due runs its callback, which
    stores the value it closed over; the render that follows has unchanged
    dependencies and does not run the effect. *)
Definition elapse (ms : nat) (h : hook) : hook :=
  match timeout h with
  | None => h
  | Some (v, due) =>
      if (due <=? ms)%nat
      then Hook (value h) (delay h) v None
      else Hook (value h) (delay h) (debouncedValue h) (Some (v, (due - ms)%nat))
  end.

(** Teardown of the component runs the clean-up. *)
Definition unmount (h : hook) : hook := cleanup h.

(** What the hook returns to its caller. *)
Definition useDebounce (h : hook) : T := debouncedValue h.

Inductive event : Type :=
  | Render (v : T) (d : nat)
  | Elapse (ms : nat).

Definition step (h : hook) (e : event) : hook :=
  match e with
  | Render v d => render v d h
  | Elapse ms => elapse ms h
  end.

Definition run (h : hook) (tr : list event) : hook := fold_left step tr h.

(** The values the caller sees after each event of [tr], in order. *)
Fixpoint outputs (h : hook) (tr : list event) : list T :=
  match tr with
  | [] => []
  | e :: tr' => useDebounce (step h e) :: outputs (step h e) tr'
  end.

(** The input signal alone: the arguments of the latest render and for how
    many milliseconds they have stayed the same. *)
Definition input_step (s : T * nat * nat) (e : event) : T * nat * nat :=
  match e with
  | Render v d => if decide (v = s.1.1 ∧ d = s.1.2) then s else (v, d, 0%nat)
  | Elapse ms => (s.1.1, s.1.2, (s.2 + ms)%nat)
  end.

Definition input_after (v0 : T) (d0 : nat) (tr : list event) : T * nat * nat :=
  fold_left input_step tr (v0, d0, 0%nat).

(** The hook and the input signal stay in step: a pending timer always holds
    the current input and has been running for as long as that input has
    been unchanged. *)
Definition in_step (st : T * nat * nat) (h : hook) : Prop :=
  value h = st.1.1 ∧ delay h = st.1.2 ∧
  ∀ w due, timeout h = Some (w, due) → w = st.1.1 ∧ (due + st.2 = st.1.2)%nat.

(** The values the hook was rendered with during [tr], in order. *)
Definition inputs (tr : list event) : list T :=
  omap (λ e, match e with Render v _ => Some v | Elapse _ => None end) tr.

(** A hook with no pending timer shows its input, and a pending timer has
    time left unless it was armed this instant. *)
Definition caught_up (st : T * nat * nat) (h : hook) : Prop :=
  (timeout h = None → debouncedValue h = value h)
  ∧ ∀ w due, timeout h = Some (w, due) → (0 < due)%nat ∨ st.2 = 0%nat.

End Hook.

Arguments hook : clear implicits.
Arguments event : clear implicits.

End Debounce.

(** ** [src/providers/AudioProvider.tsx]

    The provider is a state cell and an effect on the route; its life is a
    sequence of [setAudio] calls by descendants and of renders in which the
    route may have changed. *)

Module Audio.

(** [AudioProps] of [src/types/index.ts]. *)
Record AudioProps : Type := {
  title : string;
  audioUrl : string;
  author : string;
  imageUrl : string;
  podcastId : string
}.

(** The provider component: its state cell and the route it last rendered
    with ([usePathname]). *)
Record provider : Type := Provider {
  audio : option AudioProps;
  pathname : string
}.

Definition authoring_route : string := "/create-podcast".

(** The effect with dependency [[pathname]]. *)
Definition route_effect (p : provider) : provider :=
  if decide (pathname p = authoring_route) then Provider None (pathname p) else p.

(** First render at route [path]: [useState(undefined)], then the effect. *)
Definition mount (path : string) : provider := route_effect (Provider None path).

(** [setAudio(a)] with a value argument. *)
Definition setAudio (a : option AudioProps) (p : provider) : provider :=
  Provider a (pathname p).

(** A render in which [usePathname] returns [path]; the effect runs only when
    the dependency changed. *)
Definition navigate (path : string) (p : provider) : provider :=
  if decide (path = pathname p) then p else route_effect (Provider (audio p) path).

Inductive event : Type :=
  | SetAudio (a : option AudioProps)
  | Navigate (path : string).

Definition step (p : provider) (e : event) : provider :=
  match e with
  | SetAudio a => setAudio a p
  | Navigate path => navigate path p
  end.

Definition run (p : provider) (tr : list event) : provider := fold_left step tr p.

(** Vocabulary for traces.  [selects tr]: some event of [tr] is a call of
    [setAudio].  [arrives path tr]: some event of [tr], played from route
    [path], changes the route to the authoring route. *)
Definition selects (tr : list event) : bool :=
  existsb (λ e, match e with SetAudio _ => true | Navigate _ => false end) tr.

Fixpoint arrives (path : string) (tr : list event) : bool :=
  match tr with
  | [] => false
  | SetAudio _ :: tr' => arrives path tr'
  | Navigate path' :: tr' =>
      (bool_decide (path' ≠ path) && bool_decide (path' = authoring_route))
      || arrives path' tr'
  end.

(** [AudioContextType]: the value a provider hands to its descendants. *)
Record AudioContextType : Type := {
  ctx_audio : option AudioProps;
  ctx_setAudio : option AudioProps → provider → provider
}.

Definition context_value (p : provider) : AudioContextType :=
  {| ctx_audio := audio p; ctx_setAudio := setAudio |}.

(** [useContext(AudioContext)]: the value of the nearest enclosing provider,
    or the default given to [createContext], which is [undefined].
    [enclosing] lists the values of the providers above the caller, nearest
    first. *)
Definition useContext (enclosing : list AudioContextType) : option AudioContextType :=
  head enclosing.

Inductive exn : Type := Error (message : string).

Definition useAudio_message : string :=
  "useAudio must be used within an AudioProvider. This hook is used to get the current audio player state and to update the state. If you're trying to use useAudio outside of an AudioProvider, you need to wrap your app with the AudioProvider component.".

Definition useAudio (enclosing : list AudioContextType) : exn + AudioContextType :=
  let context := useContext enclosing in
  match context with
  | None => inl (Error useAudio_message)
  | Some c => inr c
  end.

End Audio.

(** ** The document store, as the handlers use it *)

Module Store.

(** Identifiers issued by the store ([Id<"users">], [Id<"podcasts">],
    [Id<"_storage">]) are opaque strings. *)
Abbreviation Id := string (only parsing).

(** A document of the [users] table, without its [_id]. *)
Record user : Type := User {
  u_creationTime : Z;
  clerkId : string;
  email : string;
  imageUrl : string;
  name : string
}.

(** A document of the [podcasts] table, without its [_id]; the fields are
    those of [PodcastProps] in [src/types/index.ts]. *)
Record podcast : Type := Podcast {
  p_creationTime : Z;
  audioStorageId : option Id;
  p_user : Id;
  podcastTitle : string;
  podcastDescription : string;
  audioUrl : option string;
  p_imageUrl : option string;
  imageStorageId : option Id;
  author : string;
  authorId : string;
  authorImageUrl : string;
  voicePrompt : string;
  imagePrompt : option string;
  voiceType : string;
  audioDuration : Q;
  views : Z
}.

(** The two tables, keyed by [_id], and the clock that stamps
    [_creationTime] on inserted documents. *)
Record db : Type := Db {
  users : gmap Id user;
  podcasts : gmap Id podcast;
  now : Z
}.

Inductive error : Type :=
  | ConvexError (message : string)   (* thrown by the handlers *)
  | NotUnique                        (* [unique()] met several documents *)
  | NoDocument (id : Id).            (* [patch]/[delete] of an absent [_id] *)

(** A handler is a computation over the store that returns or throws; the
    store it leaves behind is kept in both cases, so that what a failing call
    did before it failed stays visible. *)
Definition M (A : Type) : Type := db → (error + A) * db.

Definition ret {A} (a : A) : M A := λ s, (inr a, s).

Definition throw {A} (e : error) : M A := λ s, (inl e, s).

Definition bind {A B} (c : M A) (k : A → M B) : M B :=
  λ s, match c s with
       | (inl e, s') => (inl e, s')
       | (inr a, s') => k a s'
       end.

(** With these instances [x ← c; k] and [c;; k] sequence two computations. *)
#[global] Instance M_ret : MRet M := @ret.
#[global] Instance M_bind : MBind M := λ A B k c, bind c k.

(** [await Promise.all(l.map(async (x) => f x))]: the calls take effect one
    after the other, in the order of the array. *)
Fixpoint mapM {A B} (f : A → M B) (l : list A) : M (list B) :=
  match l with
  | [] => ret []
  | x :: l' => y ← f x; ys ← mapM f l'; ret (y :: ys)
  end.

(** [ctx.db.query("users")] and [ctx.db.query("podcasts")], read in full.
    The store lists a table in the order of creation; a map does not record
    that order, and the list here comes in the order of the map.  No
    property stated below depends on which order it is: what is said about
    order is said of the list a read returned, whatever it is. *)
Definition query_users : M (list (Id * user)) :=
  λ s, (inr (map_to_list (users s)), s).

Definition query_podcasts : M (list (Id * podcast)) :=
  λ s, (inr (map_to_list (podcasts s)), s).

(** [.unique()]: [null] for no document, the document when there is one, an
    exception otherwise. *)
Definition unique {A} (l : list A) : M (option A) :=
  match l with
  | [] => ret None
  | [x] => ret (Some x)
  | _ => throw NotUnique
  end.

(** [ctx.db.insert("users", fields)]: a fresh [_id], the clock as
    [_creationTime]. *)
Definition insert_user (cid em img nm : string) : M Id :=
  λ s, let id := fresh (dom (users s)) in
       (inr id, Db (<[id := User (now s) cid em img nm]> (users s)) (podcasts s) (now s)).

(** [ctx.db.patch(id, fields)] on either table. *)
Definition patch_user (id : Id) (f : user → user) : M unit :=
  λ s, match users s !! id with
       | None => (inl (NoDocument id), s)
       | Some u => (inr (), Db (<[id := f u]> (users s)) (podcasts s) (now s))
       end.

Definition patch_podcast (id : Id) (f : podcast → podcast) : M unit :=
  λ s, match podcasts s !! id with
       | None => (inl (NoDocument id), s)
       | Some p => (inr (), Db (users s) (<[id := f p]> (podcasts s)) (now s))
       end.

(** [ctx.db.delete(id)]. *)
Definition delete_user (id : Id) : M unit :=
  λ s, match users s !! id with
       | None => (inl (NoDocument id), s)
       | Some _ => (inr (), Db (delete id (users s)) (podcasts s) (now s))
       end.

End Store.

(** ** The user handlers *)

Module Users.
Import Store.

Definition NotFound : error := ConvexError "User not found".
Definition AlreadyExists : error := ConvexError "User already exists".

(** [.filter((q) => q.eq(q.field("clerkId"), id))] on the [users] query. *)
Definition by_clerkId (id : string) (docs : list (Id * user)) : list (Id * user) :=
  filter (λ d, clerkId d.2 = id) docs.

(** [.filter((q) => q.eq(q.field("authorId"), id))] on the [podcasts] query. *)
Definition by_authorId (id : string) (docs : list (Id * podcast)) : list (Id * podcast) :=
  filter (λ d, authorId d.2 = id) docs.

Definition getUserById (arg_clerkId : string) : M (Id * user) :=
  docs ← query_users;
  user ← unique (by_clerkId arg_clerkId docs);
  match user with
  | None => throw NotFound
  | Some user => ret user
  end.

(** The elements of [podcast] in a ranking entry. *)
Record podcastObject : Type := PodcastObject {
  o_podcastTitle : string;
  o_podcastId : Id
}.

(** An element of the ranking, [TopPodcastersProps]: the fields of the user
    document, spread, then [totalPodcasts] and [podcast]. *)
Record topPodcaster : Type := TopPodcaster {
  t_id : Id;
  t_creationTime : Z;
  t_email : string;
  t_imageUrl : string;
  t_clerkId : string;
  t_name : string;
  podcast_list : list podcastObject;
  totalPodcasts : Z
}.

Definition by_views (a b : Id * podcast) : Z := views b.2 - views a.2.

Definition by_totalPodcasts (a b : topPodcaster) : Z :=
  totalPodcasts b - totalPodcasts a.

Definition podcastObject_of (p : Id * podcast) : podcastObject :=
  PodcastObject (podcastTitle p.2) p.1.

Definition userEntry (u : Id * user) : M topPodcaster :=
  all ← query_podcasts;
  let podcasts := by_authorId (clerkId u.2) all in
  let sortedPodcasts := Js.sort by_views podcasts in
  let podcastObjects := podcastObject_of <$> sortedPodcasts in
  ret {| t_id := u.1;
         t_creationTime := u_creationTime u.2;
         t_email := email u.2;
         t_imageUrl := imageUrl u.2;
         t_clerkId := clerkId u.2;
         t_name := name u.2;
         totalPodcasts := Z.of_nat (length podcasts);
         podcast_list := podcastObjects |}.

Definition getTopUserByPodcastCount : M (list topPodcaster) :=
  user ← query_users;
  userData ← mapM userEntry user;
  ret (Js.sort by_totalPodcasts userData).

Definition createUser (arg_clerkId arg_email arg_imageUrl arg_name : string) : M unit :=
  docs ← query_users;
  existingUser ← unique (by_clerkId arg_clerkId docs);
  match existingUser with
  | Some _ => throw AlreadyExists
  | None =>
      insert_user arg_clerkId arg_email arg_imageUrl arg_name;;
      ret ()
  end.

(** [{ imageUrl, email }] merged into a user document. *)
Definition set_profile (img em : string) (u : user) : user :=
  User (u_creationTime u) (clerkId u) em img (name u).

(** [{ authorImageUrl }] merged into a podcast document. *)
Definition set_authorImageUrl (img : string) (p : podcast) : podcast :=
  Podcast (p_creationTime p) (audioStorageId p) (p_user p) (podcastTitle p)
          (podcastDescription p) (audioUrl p) (p_imageUrl p) (imageStorageId p)
          (author p) (authorId p) img (voicePrompt p) (imagePrompt p)
          (voiceType p) (audioDuration p) (views p).

Definition updateUser (arg_clerkId arg_imageUrl arg_email : string) : M unit :=
  docs ← query_users;
  user ← unique (by_clerkId arg_clerkId docs);
  match user with
  | None => throw NotFound
  | Some user =>
      patch_user user.1 (set_profile arg_imageUrl arg_email);;
      all ← query_podcasts;
      let podcast := by_authorId arg_clerkId all in
      mapM (λ p, patch_podcast p.1 (set_authorImageUrl arg_imageUrl)) podcast;;
      ret ()
  end.

Definition deleteUser (arg_clerkId : string) : M unit :=
  docs ← query_users;
  user ← unique (by_clerkId arg_clerkId docs);
  match user with
  | None => throw NotFound
  | Some user => delete_user user.1
  end.

(** The invariant of the data model: no two user documents share a
    [clerkId]. *)
Definition unique_clerkIds (s : db) : Prop :=
  NoDup ((λ d, clerkId d.2) <$> map_to_list (users s)).

(** The mutations of the gateway, as calls, and a run of several of them;
    a call that throws leaves the store it had reached. *)
Inductive call : Type :=
  | Create (arg_clerkId arg_email arg_imageUrl arg_name : string)
  | Update (arg_clerkId arg_imageUrl arg_email : string)
  | Delete (arg_clerkId : string).

Definition perform (c : call) : M unit :=
  match c with
  | Create cid em img nm => createUser cid em img nm
  | Update cid img em => updateUser cid img em
  | Delete cid => deleteUser cid
  end.

Definition perform_all (cs : list call) (s : db) : db :=
  fold_left (λ s c, (perform c s).2) cs s.

(** Some user document carries the given [clerkId]. *)
Definition known (id : string) (s : db) : Prop :=
  ∃ i u, users s !! i = Some u ∧ clerkId u = id.

(** The user document a ranking entry was built from. *)
Definition entry_user (e : topPodcaster) : Id * user :=
  (t_id e, User (t_creationTime e) (t_clerkId e) (t_email e) (t_imageUrl e) (t_name e)).

(** The podcasts of an author, as listed by the store. *)
Definition podcasts_of (id : string) (s : db) : list (Id * podcast) :=
  by_authorId id (map_to_list (podcasts s)).

(** The entry [userEntry] computes for a user document. *)
Definition entry_of (s : db) (u : Id * user) : topPodcaster :=
  {| t_id := u.1;
     t_creationTime := u_creationTime u.2;
     t_email := email u.2;
     t_imageUrl := imageUrl u.2;
     t_clerkId := clerkId u.2;
     t_name := name u.2;
     totalPodcasts := Z.of_nat (length (podcasts_of (clerkId u.2) s));
     podcast_list := podcastObject_of <$> Js.sort by_views (podcasts_of (clerkId u.2) s) |}.

(** The body of [getTopUserByPodcastCount] past its reads, as a function of
    the lists they returned: the entry of one user among the podcasts [all],
    and the ranking of the users [us]. *)
Definition entry_among (all : list (Id * podcast)) (u : Id * user) : topPodcaster :=
  let podcasts := by_authorId (clerkId u.2) all in
  let sortedPodcasts := Js.sort by_views podcasts in
  let podcastObjects := podcastObject_of <$> sortedPodcasts in
  {| t_id := u.1;
     t_creationTime := u_creationTime u.2;
     t_email := email u.2;
     t_imageUrl := imageUrl u.2;
     t_clerkId := clerkId u.2;
     t_name := name u.2;
     totalPodcasts := Z.of_nat (length podcasts);
     podcast_list := podcastObjects |}.

Definition ranking_among (us : list (Id * user)) (all : list (Id * podcast)) :
    list topPodcaster :=
  Js.sort by_totalPodcasts (entry_among all <$> us).

(** The podcasts a ranking lists, all entries together. *)
Definition total_listed (r : list topPodcaster) : Z :=
  foldr (λ e acc, totalPodcasts e + acc) 0 r.

(** What the cascade of [updateUser] does to one podcast document. *)
Definition cascade (id img : string) (p : podcast) : podcast :=
  if decide (authorId p = id) then set_authorImageUrl img p else p.

End Users.

(** ** Sample data used by the examples below *)

Module Samples.

Definition episode : Audio.AudioProps :=
  {| Audio.title := "Episode 1"; Audio.audioUrl := "https://cdn/ep1.mp3";
     Audio.author := "Ada"; Audio.imageUrl := "https://cdn/ep1.png";
     Audio.podcastId := "p1" |}.

Definition ann : Store.user := Store.User 10 "A" "ann@example.com" "ann.png" "Ann".
Definition bob : Store.user := Store.User 20 "B" "bob@example.com" "bob.png" "Bob".

Definition show (title author : string) (views : Z) : Store.podcast :=
  Store.Podcast 30 None "u1" title "about" (Some "a.mp3") None None author author
                "old.png" "prompt" None "alloy" 65 views.

(** Ann has published three podcasts and Bob one. *)
Definition library : Store.db :=
  Store.Db (<["u1" := ann]> (<["u2" := bob]> ∅))
           (<["p1" := show "Tea" "A" 5]> (<["p2" := show "Jazz" "A" 9]>
             (<["p3" := show "Maps" "A" 7]> (<["p4" := show "Rust" "B" 100]> ∅))))
           1000.

(** A store in which two user documents carry the same [clerkId]. *)
Definition twins : Store.db :=
  Store.Db (<["u1" := ann]> (<["u9" := Store.User 90 "A" "ann@work.example" "w.png" "Ann W"]> ∅))
           ∅ 1000.

End Samples.

(* ===================================================================== *)
(** * Part II: properties                                                 *)
(* ===================================================================== *)

(** ** Time formatter *)

Section Rounding.

Lemma round_half_even_ge (N D K : Z) : 0 < D → K * D ≤ N → K ≤ Js.round_half_even N D.
Proof.
  intros HD HK. unfold Js.round_half_even.
  assert (Hk : K ≤ N / D) by (apply Z.div_le_lower_bound; lia).
  repeat match goal with |- context [if ?b then _ else _] => destruct b end; lia.
Qed.

Lemma round_half_even_le (N D K : Z) : 0 < D → N ≤ K * D → Js.round_half_even N D ≤ K.
Proof.
  intros HD HK. unfold Js.round_half_even.
  pose proof (Z.div_mod N D ltac:(lia)) as Hdm.
  pose proof (Z.mod_pos_bound N D HD) as Hr.
  destruct (2 * (N mod D) <? D) eqn:C1; [apply Z.ltb_lt in C1; nia |].
  apply Z.ltb_ge in C1.
  assert (N / D < K) by nia.
  repeat match goal with |- context [if ?b then _ else _] => destruct b end; lia.
Qed.

Lemma round_half_even_lt (N D K : Z) :
  0 < D → 2 * N < (2 * K - 1) * D → Js.round_half_even N D < K.
Proof.
  intros HD HK. unfold Js.round_half_even.
  pose proof (Z.div_mod N D ltac:(lia)) as Hdm.
  pose proof (Z.mod_pos_bound N D HD) as Hr.
  destruct (2 * (N mod D) <? D) eqn:C1; [apply Z.ltb_lt in C1; nia |].
  apply Z.ltb_ge in C1.
  destruct (D <? 2 * (N mod D)) eqn:C2; [apply Z.ltb_lt in C2; nia |].
  apply Z.ltb_ge in C2. destruct (Z.even (N / D)); nia.
Qed.

Lemma round_half_even_gt (N D K : Z) :
  0 < D → (2 * K + 1) * D < 2 * N → K < Js.round_half_even N D.
Proof.
  intros HD HK. unfold Js.round_half_even.
  pose proof (Z.div_mod N D ltac:(lia)) as Hdm.
  pose proof (Z.mod_pos_bound N D HD) as Hr.
  destruct (2 * (N mod D) <? D) eqn:C1; [apply Z.ltb_lt in C1; nia |].
  apply Z.ltb_ge in C1.
  destruct (D <? 2 * (N mod D)) eqn:C2; [apply Z.ltb_lt in C2; nia |].
  apply Z.ltb_ge in C2. destruct (Z.even (N / D)); nia.
Qed.

End Rounding.

Section Quotient.

Lemma unit_eq : Js.unit = 2 ^ 1074.
Proof. reflexivity. Qed.

Lemma pow2_split (a b : Z) : 0 ≤ a ≤ b → 2 ^ b = 2 ^ a * 2 ^ (b - a).
Proof. intros H. rewrite <- Z.pow_add_r by lia. f_equal. lia. Qed.

Lemma pow2_divide (a b : Z) : 0 ≤ a ≤ b → (2 ^ a | 2 ^ b).
Proof. intros H. exists (2 ^ (b - a)). rewrite (pow2_split a b H). lia. Qed.

(** The exponent the quotient is rounded at. *)
Lemma quotient_exponent (S f t : Z) :
  0 ≤ f → 0 ≤ S < 2 ^ 53 → t = S * 2 ^ f → t < FormatTime.limit * Js.unit →
  let e := Z.max (Z.log2 (t / 60) - 52) 0 in
  0 ≤ e ≤ 1071 ∧ (0 < e → e ≤ f - 5 ∧ 60 * 2 ^ 53 ≤ t) ∧ (e = 0 → t < 60 * 2 ^ 53 + 60).
Proof.
  intros Hf HS Ht Hlim e.
  assert (H0 : 0 ≤ t) by (subst t; apply Z.mul_nonneg_nonneg; [lia | apply Z.pow_nonneg; lia]).
  assert (Hq0 : 0 ≤ t / 60) by (apply Z.div_pos; lia).
  assert (Hq : t / 60 < 2 ^ 1124).
  { apply Z.div_lt_upper_bound; [lia |].
    unfold FormatTime.limit in Hlim. rewrite unit_eq in Hlim.
    replace (2 ^ 1124) with (2 ^ 50 * 2 ^ 1074) by (rewrite <- Z.pow_add_r by lia; reflexivity).
    lia. }
  destruct (Z.eq_dec (t / 60) 0) as [Hz | Hnz].
  - assert (E : e = 0) by (unfold e; rewrite Hz; reflexivity).
    rewrite E. split; [lia |]. split; [lia |]. intros _.
    pose proof (Z.div_mod t 60 ltac:(lia)). pose proof (Z.mod_pos_bound t 60 ltac:(lia)). lia.
  - assert (Hpos : 0 < t / 60) by lia.
    assert (Hl : Z.log2 (t / 60) < 1124) by (apply Z.log2_lt_pow2; assumption).
    pose proof (Z.log2_nonneg (t / 60)) as Hl0.
    split; [unfold e; lia |]. split.
    + intros He. assert (E : e = Z.log2 (t / 60) - 52) by (unfold e in *; lia).
      split.
      * assert (Hlf : Z.log2 (t / 60) < 48 + f).
        { apply Z.log2_lt_pow2; [assumption |].
          apply Z.div_lt_upper_bound; [lia |].
          replace (2 ^ (48 + f)) with (2 ^ 48 * 2 ^ f) by (rewrite <- Z.pow_add_r by lia; reflexivity).
          assert (0 < 2 ^ f) by (apply Z.pow_pos_nonneg; lia).
          subst t. nia. }
        lia.
      * assert (Hge : 2 ^ 53 ≤ t / 60).
        { pose proof (Z.log2_spec (t / 60) Hpos) as [Hlow _].
          eapply Z.le_trans; [| exact Hlow].
          apply Z.pow_le_mono_r; lia. }
        pose proof (Z.div_mod t 60 ltac:(lia)). pose proof (Z.mod_pos_bound t 60 ltac:(lia)). lia.
    + intros He. assert (Hl52 : Z.log2 (t / 60) ≤ 52) by (unfold e in He; lia).
      assert (Hlt : t / 60 < 2 ^ 53) by (apply Z.log2_lt_pow2; [assumption | lia]).
      pose proof (Z.div_mod t 60 ltac:(lia)). pose proof (Z.mod_pos_bound t 60 ltac:(lia)). lia.
Qed.

End Quotient.

Section Sides.

(** The distance of a double to a whole number of minutes: a multiple of
    the smaller of its own spacing and of four seconds. *)
Lemma minute_gap (S f t K G : Z) :
  0 ≤ f → t = S * 2 ^ f → 0 < G → (G = 60 * K * Js.unit - t ∨ G = t - 60 * K * Js.unit) →
  2 ^ Z.min f 1076 ≤ G.
Proof.
  intros Hf Ht HG HGdef.
  apply Z.divide_pos_le; [exact HG |].
  assert (Hd1 : (2 ^ Z.min f 1076 | t)).
  { subst t. apply Z.divide_mul_r. apply pow2_divide. lia. }
  assert (Hd2 : (2 ^ Z.min f 1076 | 60 * K * Js.unit)).
  { replace (60 * K * Js.unit) with (15 * K * 2 ^ 1076)
      by (rewrite unit_eq; replace (2 ^ 1076) with (4 * 2 ^ 1074)
            by (rewrite (pow2_split 1074 1076) by lia; reflexivity); lia).
    apply Z.divide_mul_r. apply pow2_divide. lia. }
  destruct HGdef as [-> | ->]; [apply Z.divide_sub_r | apply Z.divide_sub_r]; assumption.
Qed.

(** Dividing a double below the limit by 60 never rounds across a whole
    number of minutes. *)
Lemma quotient_side (S f t K : Z) :
  0 ≤ f → 0 ≤ S < 2 ^ 53 → t = S * 2 ^ f → t < FormatTime.limit * Js.unit → 1 ≤ K →
  (t < 60 * K * Js.unit → Js.round_ratio t 60 < K * Js.unit)
  ∧ (60 * K * Js.unit < t → K * Js.unit < Js.round_ratio t 60)
  ∧ (60 * K * Js.unit ≤ t → K * Js.unit ≤ Js.round_ratio t 60)
  ∧ (t ≤ 60 * K * Js.unit → Js.round_ratio t 60 ≤ K * Js.unit).
Proof.
  intros Hf HS Ht Hlim HK.
  destruct (quotient_exponent S f t Hf HS Ht Hlim) as (He & Hepos & Hezero).
  unfold Js.round_ratio.
  set (e := Z.max (Z.log2 (t / 60) - 52) 0) in *.
  assert (HP : 0 < 2 ^ e) by (apply Z.pow_pos_nonneg; lia).
  assert (HU : Js.unit = 2 ^ e * 2 ^ (1074 - e)) by (rewrite unit_eq; apply pow2_split; lia).
  assert (HA : 0 < 2 ^ (1074 - e)) by (apply Z.pow_pos_nonneg; lia).
  set (P := 2 ^ e) in *. set (A := 2 ^ (1074 - e)) in *.
  assert (Hbig : 60 * 2 ^ 53 + 60 < 60 * Js.unit - 30).
  { rewrite unit_eq. rewrite (pow2_split 54 1074) by lia.
    assert (0 < 2 ^ (1074 - 54)) by (apply Z.pow_pos_nonneg; lia). nia. }
  assert (Hgap : ∀ G, 0 < G →
            (G = 60 * K * Js.unit - t ∨ G = t - 60 * K * Js.unit) → 30 * P < G).
  { intros G HG HGdef. destruct (Z.eq_dec e 0) as [E0 | E0].
    - assert (HP1 : P = 1) by (unfold P; rewrite E0; reflexivity).
      specialize (Hezero E0). destruct HGdef as [-> | ->]; nia.
    - destruct (Hepos ltac:(lia)) as [Hef _].
      pose proof (minute_gap S f t K G Hf Ht HG HGdef) as Hmin.
      assert (Hle : 2 ^ (e + 5) ≤ 2 ^ Z.min f 1076) by (apply Z.pow_le_mono_r; lia).
      rewrite Z.pow_add_r in Hle by lia. change (2 ^ 5) with 32 in Hle. fold P in Hle. lia. }
  replace (K * Js.unit) with (K * A * P) by (rewrite HU; lia).
  split; [| split; [| split]].
  - intros Hlt. apply Z.mul_lt_mono_pos_r; [exact HP |].
    apply round_half_even_lt; [lia |].
    pose proof (Hgap (60 * K * Js.unit - t) ltac:(lia) ltac:(left; reflexivity)). nia.
  - intros Hlt. apply Z.mul_lt_mono_pos_r; [exact HP |].
    apply round_half_even_gt; [lia |].
    pose proof (Hgap (t - 60 * K * Js.unit) ltac:(lia) ltac:(right; reflexivity)). nia.
  - intros Hle. apply Z.mul_le_mono_nonneg_r; [lia |].
    apply round_half_even_ge; [lia | nia].
  - intros Hle. apply Z.mul_le_mono_nonneg_r; [lia |].
    apply round_half_even_le; [lia | nia].
Qed.

End Sides.

Section Form.

Lemma unit_pos : 0 < Js.unit.
Proof. rewrite unit_eq. apply Z.pow_pos_nonneg; lia. Qed.

Lemma toString_small (z : Z) : Z.abs z < 2 ^ 53 → Js.toString (Js.Int z) = Js.digits z.
Proof.
  intros Hz. unfold Js.toString.
  destruct (Z.abs z <? 2 ^ 53) eqn:C; [reflexivity | apply Z.ltb_ge in C; lia].
Qed.

(** Whole minutes of a non-negative double below the limit. *)
Lemma quotient_floor (t : Z) :
  Js.is_double t → 0 ≤ t → t < FormatTime.limit * Js.unit →
  Js.floor (Js.div (Js.Num t) 60) = Js.Int (t / Js.unit / 60).
Proof.
  intros (S & f & Hf & HS & Ht) H0 Hlim.
  pose proof unit_pos as HU.
  assert (HS0 : 0 ≤ S < 2 ^ 53).
  { assert (0 < 2 ^ f) by (apply Z.pow_pos_nonneg; lia). nia. }
  rewrite Z.div_div by lia.
  set (w := t / (Js.unit * 60)).
  assert (Hw : 60 * w * Js.unit ≤ t < 60 * (w + 1) * Js.unit).
  { pose proof (Z.div_mod t (Js.unit * 60) ltac:(lia)) as Hdm.
    pose proof (Z.mod_pos_bound t (Js.unit * 60) ltac:(lia)) as Hr.
    fold w in Hdm. lia. }
  assert (Hw0 : 0 ≤ w) by (apply Z.div_pos; lia).
  assert (Hw50 : w < 2 ^ 50) by (unfold FormatTime.limit in Hlim; nia).
  destruct (quotient_side S f t (w + 1) Hf HS0 Ht Hlim ltac:(lia)) as (Hup & _).
  assert (Hlow : w * Js.unit ≤ Js.round_ratio t 60).
  { destruct (Z.eq_dec w 0) as [-> | Hne].
    - unfold Js.round_ratio.
      apply Z.mul_nonneg_nonneg; [| apply Z.pow_nonneg; lia].
      apply (round_half_even_ge t _ 0); [| lia].
      apply Z.mul_pos_pos; [lia | apply Z.pow_pos_nonneg; lia].
    - destruct (quotient_side S f t w Hf HS0 Ht Hlim ltac:(lia)) as (_ & _ & Hge & _).
      apply Hge. lia. }
  specialize (Hup ltac:(lia)).
  unfold Js.div, Js.round_number.
  destruct (0 <=? t) eqn:C0; [| apply Z.leb_gt in C0; lia].
  assert (Hhuge : Js.round_ratio t 60 < Js.huge).
  { eapply Z.lt_le_trans; [exact Hup |].
    change Js.huge with (2 ^ 1024 * Js.unit).
    apply Z.mul_le_mono_nonneg_r; [lia |].
    assert (2 ^ 50 + 1 ≤ 2 ^ 1024) by (rewrite (pow2_split 51 1024) by lia;
      assert (0 < 2 ^ (1024 - 51)) by (apply Z.pow_pos_nonneg; lia); nia). lia. }
  destruct (Js.round_ratio t 60 <? Js.huge) eqn:Ch; [| apply Z.ltb_ge in Ch; lia].
  simpl. f_equal. symmetry. apply (Z.div_unique_pos _ _ w (Js.round_ratio t 60 - w * Js.unit)); lia.
Qed.

(** Remaining whole seconds of a non-negative number. *)
Lemma remainder_floor (t : Z) :
  0 ≤ t → Js.floor (Js.rem (Js.Num t) 60) = Js.Int ((t / Js.unit) mod 60).
Proof.
  intros H0. pose proof unit_pos as HU. simpl. f_equal.
  rewrite Z.rem_mod_nonneg by lia.
  rewrite (Z.mul_comm 60), Z.rem_mul_r by lia.
  rewrite (Z.mul_comm Js.unit), Z.div_add by lia.
  rewrite Z.mod_div by lia. reflexivity.
Qed.

End Form.

Section Spec.

Lemma floor_value (t : Z) : Qfloor (Js.value t) = t / Js.unit.
Proof.
  unfold Js.value, Qfloor. rewrite Z2Pos.id by apply unit_pos. reflexivity.
Qed.

(** The doubles between the limit of the general argument and the first
    duration that is formatted wrongly: seven of them, eight seconds apart. *)
Lemma last_doubles (t : Z) :
  Js.is_double t → FormatTime.limit * Js.unit ≤ t < FormatTime.first_wrong * Js.unit →
  ∃ j, 0 ≤ j < 7 ∧ t = (FormatTime.limit + 8 * j) * Js.unit.
Proof.
  intros (S & f & Hf & HS & Ht) [Hlow Hup].
  pose proof unit_pos as HU.
  assert (Hpf : 0 < 2 ^ f) by (apply Z.pow_pos_nonneg; lia).
  assert (HS0 : 0 ≤ S < 2 ^ 53) by (unfold FormatTime.limit in Hlow; nia).
  assert (Hf' : 1077 ≤ f).
  { destruct (Z.le_gt_cases 1077 f) as [| Hlt]; [assumption | exfalso].
    assert (2 ^ f ≤ 2 ^ 1076) by (apply Z.pow_le_mono_r; lia).
    assert (E : 2 ^ 1076 = 4 * Js.unit)
      by (rewrite unit_eq, (pow2_split 1074 1076) by lia; reflexivity).
    unfold FormatTime.limit in Hlow.
    assert (60 * 2 ^ 50 = 15 * 2 ^ 52) by reflexivity.
    assert (2 ^ 53 = 2 * 2 ^ 52) by reflexivity.
    assert (0 < 2 ^ 52) by reflexivity.
    nia. }
  assert (E : 2 ^ f = 8 * Js.unit * 2 ^ (f - 1077)).
  { replace (8 * Js.unit) with (2 ^ 1077)
      by (rewrite unit_eq, (pow2_split 1074 1077) by lia; reflexivity).
    apply pow2_split. lia. }
  set (c := S * 2 ^ (f - 1077)).
  assert (Htc : t = 8 * c * Js.unit) by (unfold c; rewrite Ht, E; lia).
  unfold FormatTime.limit, FormatTime.first_wrong in *.
  exists (c - 15 * 2 ^ 49).
  assert (60 * 2 ^ 50 = 8 * (15 * 2 ^ 49)) by reflexivity.
  split; [nia | rewrite Htc; lia].
Qed.

Lemma digits_two (r : Z) :
  0 ≤ r < 60 →
  String.length (if r <? 10 then ("0" ++ Js.digits r)%string else Js.digits r) = 2%nat.
Proof.
  intros Hr.
  assert (Hn : r = Z.of_nat (Z.to_nat r)) by lia.
  assert (Hlt : (Z.to_nat r < 60)%nat) by lia.
  rewrite Hn. generalize dependent (Z.to_nat r). clear. intros n _ Hlt.
  do 60 (destruct n as [| n]; [vm_compute; reflexivity |]).
  lia.
Qed.

(** The string, in whole seconds. *)
Lemma formatTime_form (t : Z) :
  Js.is_double t → 0 ≤ t → t < FormatTime.first_wrong * Js.unit →
  FormatTime.formatTime (Js.Num t)
  = (Js.digits (t / Js.unit / 60)%Z ++ ":"
     ++ (if ((t / Js.unit) mod 60 <? 10)%Z
         then "0" ++ Js.digits ((t / Js.unit) mod 60)%Z
         else Js.digits ((t / Js.unit) mod 60)%Z))%string.
Proof.
  intros Hd H0 Hlim. pose proof unit_pos as HU.
  destruct (Z.lt_ge_cases t (FormatTime.limit * Js.unit)) as [Hlt | Hge].
  - unfold FormatTime.formatTime.
    rewrite (quotient_floor t Hd H0 Hlt), (remainder_floor t H0).
    pose proof (Z.mod_pos_bound (t / Js.unit) 60 ltac:(lia)) as Hr.
    assert (Hm : 0 ≤ t / Js.unit / 60 < 2 ^ 50).
    { rewrite Z.div_div by lia. split; [apply Z.div_pos; lia |].
      apply Z.div_lt_upper_bound; [lia |]. unfold FormatTime.limit in Hlt. lia. }
    rewrite !toString_small by lia. reflexivity.
  - destruct (last_doubles t Hd (conj Hge Hlim)) as (j & Hj & ->).
    rewrite !Z.div_mul by lia.
    assert (Hcases : j = 0 ∨ j = 1 ∨ j = 2 ∨ j = 3 ∨ j = 4 ∨ j = 5 ∨ j = 6) by lia.
    destruct Hcases as [-> | [-> | [-> | [-> | [-> | [-> | ->]]]]]]; vm_compute; reflexivity.
Qed.

End Spec.

(** Whole minutes of a duration are the whole minutes of its whole seconds. *)
Lemma floor_div60 (s : Q) : Qfloor (s / 60) = Qfloor s `div` 60.
Proof.
  destruct s as [a b]. unfold Qfloor, Qdiv, Qmult, Qinv. simpl.
  rewrite Z.mul_1_r, Pos2Z.inj_mul.
  rewrite Z.div_div by lia. reflexivity.
Qed.

(** Taking whole multiples of a minute away commutes with [floor]. *)
Lemma floor_sub_minutes (s : Q) (m : Z) :
  Qfloor (s - 60 * inject_Z m) = Qfloor s - 60 * m.
Proof.
  destruct s as [a b]. unfold Qfloor, Qminus, Qplus, Qopp, Qmult, inject_Z. simpl.
  rewrite !Pos.mul_1_r, Z.mul_1_r.
  rewrite Z.div_add by lia. lia.
Qed.

(** C8, as the code has it.  For every non-negative double [s] below
    60 * 2^50 + 56 seconds, [formatTime s] is the number of whole minutes
    [floor (s / 60)], a colon, and [floor (s mod 60)] written with a leading
    zero exactly when it is under 10; these are the quotient and remainder of
    the whole seconds by 60, and the seconds part always has two characters.
    In particular 65, 5 and 600 seconds are formatted as 1:05, 0:05 and
    10:00. *)
Theorem formatTime_spec :
  (∀ t : Z, Js.is_double t → 0 ≤ t → t < FormatTime.first_wrong * Js.unit →
     let s := Js.value t in
     let m := Qfloor (s / 60) in
     let r := Qfloor (s - 60 * inject_Z m) in
     let z := if r <? 10 then ("0" ++ Js.digits r)%string else Js.digits r in
     FormatTime.formatTime (Js.Num t) = (Js.digits m ++ ":" ++ z)%string
     ∧ m = Qfloor s `div` 60 ∧ r = Qfloor s `mod` 60
     ∧ 0 ≤ m ∧ 0 ≤ r < 60 ∧ String.length z = 2%nat)
  ∧ FormatTime.formatTime (Js.literal 65) = "1:05"%string
  ∧ FormatTime.formatTime (Js.literal 5) = "0:05"%string
  ∧ FormatTime.formatTime (Js.literal 600) = "10:00"%string.
Proof.
  split; [| split; [| split]; vm_compute; reflexivity].
  intros t Hd H0 Hlim s m r z. pose proof unit_pos as HU.
  assert (Hfl : Qfloor s = t / Js.unit) by apply floor_value.
  assert (Hm : m = Qfloor s `div` 60) by apply floor_div60.
  assert (Hr : r = Qfloor s `mod` 60).
  { unfold r. rewrite floor_sub_minutes. fold m. rewrite Hm.
    rewrite Z.mod_eq by lia. reflexivity. }
  assert (Hfl0 : 0 ≤ Qfloor s) by (rewrite Hfl; apply Z.div_pos; lia).
  assert (Hr60 : 0 ≤ r < 60) by (rewrite Hr; apply Z.mod_pos_bound; lia).
  split; [| repeat split; try lia].
  - rewrite (formatTime_form t Hd H0 Hlim). unfold z. rewrite Hr, Hm, Hfl. reflexivity.
  - rewrite Hm. apply Z.div_pos; lia.
  - apply digits_two, Hr60.
Qed.

Lemma formatTime_spec_witness :
  let t := 131 * 2 ^ 1073 in
  Js.is_double t ∧ 0 ≤ t ∧ t < FormatTime.first_wrong * Js.unit
  ∧ Js.literal (131 # 2) = Js.Num t
  ∧ FormatTime.formatTime (Js.Num t) = "1:05"%string.
Proof.
  intros t.
  assert (H1 : Js.is_double t) by (exists 131, 1073; split; [lia | split; vm_compute; reflexivity]).
  assert (H2 : 0 ≤ t) by (vm_compute; discriminate).
  assert (H3 : t < FormatTime.first_wrong * Js.unit) by (vm_compute; reflexivity).
  split; [exact H1 |]. split; [exact H2 |]. split; [exact H3 |].
  split; [vm_compute; reflexivity |].
  pose proof (proj1 (proj1 formatTime_spec t H1 H2 H3)) as H.
  vm_compute in H |- *. exact H.
Defined.

(** C8, as stated, fails for large durations: the division by 60 is rounded
    to a double.  At 60 * 2^50 + 56 seconds the quotient lies within half a
    spacing of the next whole number, the minutes come out as 2^50 + 1
    instead of 2^50, and the result is 1125899906842625:56. *)
Lemma formatTime_large_duration :
  let t := FormatTime.first_wrong * Js.unit in
  Js.is_double t ∧ 0 ≤ t
  ∧ Js.literal (inject_Z FormatTime.first_wrong) = Js.Num t
  ∧ Qfloor (Js.value t / 60) = 2 ^ 50
  ∧ Qfloor (Js.value t - 60 * inject_Z (2 ^ 50)) = 56
  ∧ FormatTime.formatTime (Js.Num t) = "1125899906842625:56"%string
  ∧ FormatTime.formatTime (Js.Num t)
    ≠ (Js.digits (Qfloor (Js.value t / 60)) ++ ":" ++ "56")%string.
Proof.
  intros t.
  split; [exists (15 * 2 ^ 49 + 7), 1077; split; [lia | split; vm_compute; reflexivity] |].
  split; [vm_compute; discriminate |].
  split; [vm_compute; reflexivity |].
  split; [vm_compute; reflexivity |].
  split; [vm_compute; reflexivity |].
  split; [vm_compute; reflexivity |].
  vm_compute. discriminate.
Qed.

(** ** Playback-state container *)

Section AudioFacts.
Import Audio.

Lemma run_app (p : provider) (tr1 tr2 : list event) :
  run p (tr1 ++ tr2) = run (run p tr1) tr2.
Proof. unfold run. apply fold_left_app. Qed.

Lemma pathname_navigate (path : string) (p : provider) :
  pathname (navigate path p) = path.
Proof.
  unfold navigate, route_effect. simpl.
  repeat case_decide; simpl; congruence.
Qed.

(** Events that neither select nor arrive on the authoring route leave the
    selection alone. *)
Lemma run_quiet (tr : list event) : ∀ p,
  selects tr = false → arrives (pathname p) tr = false →
  audio (run p tr) = audio p.
Proof.
  induction tr as [| e tr IH]; intros p Hsel Harr; [reflexivity |].
  destruct e as [a | path]; simpl in Hsel; [discriminate |].
  simpl in Harr. apply orb_false_iff in Harr as [Hnow Hlater].
  change (run p (Navigate path :: tr)) with (run (navigate path p) tr).
  rewrite IH; [| exact Hsel | rewrite pathname_navigate; exact Hlater].
  unfold navigate, route_effect. simpl.
  destruct (decide (path = pathname p)) as [| Hne]; [reflexivity |].
  destruct (decide (path = authoring_route)) as [Heq |]; [| reflexivity].
  rewrite bool_decide_eq_true_2 in Hnow by exact Hne.
  rewrite bool_decide_eq_true_2 in Hnow by exact Heq.
  discriminate.
Qed.

(** Without a new selection an empty container stays empty. *)
Lemma run_stays_absent (tr : list event) : ∀ p,
  selects tr = false → audio p = None → audio (run p tr) = None.
Proof.
  induction tr as [| e tr IH]; intros p Hsel Hnone; [exact Hnone |].
  destruct e as [a | path]; simpl in Hsel; [discriminate |].
  change (run p (Navigate path :: tr)) with (run (navigate path p) tr).
  apply IH; [exact Hsel |].
  unfold navigate, route_effect. simpl.
  repeat case_decide; simpl; congruence.
Qed.

End AudioFacts.

(** C3.  Over every sequence of [setAudio] calls and route changes, played
    from any state of the provider: (1) after a call [setAudio a], and as
    long as no later call and no arrival on the authoring route follows, the
    current value is [a]; (2) after the route changes to [/create-podcast],
    and as long as no later call follows, the current value is absent,
    whatever was selected before; and a freshly mounted provider holds no
    selection. *)
Theorem audio_latest_selection_until_authoring :
  (∀ (p : Audio.provider) (tr quiet : list Audio.event) (a : option Audio.AudioProps),
     Audio.selects quiet = false →
     Audio.arrives (Audio.pathname (Audio.run p tr)) quiet = false →
     Audio.audio (Audio.run p (tr ++ Audio.SetAudio a :: quiet)) = a)
  ∧ (∀ (p : Audio.provider) (tr rest : list Audio.event),
     Audio.pathname (Audio.run p tr) ≠ Audio.authoring_route →
     Audio.selects rest = false →
     Audio.audio (Audio.run p (tr ++ Audio.Navigate Audio.authoring_route :: rest)) = None)
  ∧ (∀ path, Audio.audio (Audio.mount path) = None).
Proof.
  split; [| split].
  - intros p tr quiet a Hsel Harr.
    rewrite run_app.
    change (Audio.run (Audio.run p tr) (Audio.SetAudio a :: quiet))
      with (Audio.run (Audio.setAudio a (Audio.run p tr)) quiet).
    rewrite run_quiet; [reflexivity | exact Hsel | exact Harr].
  - intros p tr rest Hroute Hsel.
    rewrite run_app.
    change (Audio.run (Audio.run p tr) (Audio.Navigate Audio.authoring_route :: rest))
      with (Audio.run (Audio.navigate Audio.authoring_route (Audio.run p tr)) rest).
    apply run_stays_absent; [exact Hsel |].
    unfold Audio.navigate, Audio.route_effect. simpl.
    destruct (decide (Audio.authoring_route = Audio.pathname (Audio.run p tr))) as [Heq | _];
      [congruence |].
    destruct (decide (Audio.authoring_route = Audio.authoring_route)); [reflexivity | congruence].
  - intros path. unfold Audio.mount, Audio.route_effect. simpl.
    case_decide; reflexivity.
Qed.

Lemma audio_latest_selection_until_authoring_witness :
  let p := Audio.mount "/" in
  (let tr := [Audio.Navigate "/discover"] in
   let quiet := [Audio.Navigate "/profile"; Audio.Navigate "/"] in
   Audio.selects quiet = false
   ∧ Audio.arrives (Audio.pathname (Audio.run p tr)) quiet = false
   ∧ Audio.audio (Audio.run p (tr ++ Audio.SetAudio (Some Samples.episode) :: quiet))
     = Some Samples.episode)
  ∧ (let tr := [Audio.SetAudio (Some Samples.episode)] in
     let rest := [Audio.Navigate "/"] in
     Audio.pathname (Audio.run p tr) ≠ Audio.authoring_route
     ∧ Audio.selects rest = false
     ∧ Audio.audio (Audio.run p (tr ++ Audio.Navigate Audio.authoring_route :: rest)) = None).
Proof.
  intros p. split.
  - intros tr quiet.
    assert (H1 : Audio.selects quiet = false) by reflexivity.
    assert (H2 : Audio.arrives (Audio.pathname (Audio.run p tr)) quiet = false) by reflexivity.
    split; [exact H1 |]. split; [exact H2 |].
    exact (proj1 audio_latest_selection_until_authoring p tr quiet _ H1 H2).
  - intros tr rest.
    assert (H1 : Audio.pathname (Audio.run p tr) ≠ Audio.authoring_route)
      by (vm_compute; discriminate).
    assert (H2 : Audio.selects rest = false) by reflexivity.
    split; [exact H1 |]. split; [exact H2 |].
    exact (proj1 (proj2 audio_latest_selection_until_authoring) p tr rest H1 H2).
Defined.

(** C7.  [useAudio] called with no enclosing provider (the context value is
    the default, [undefined]) throws; called below a provider it returns that
    provider's context value, the nearest one when several enclose it, and
    through it the provider's current selection. *)
Theorem useAudio_guard :
  Audio.useAudio [] = inl (Audio.Error Audio.useAudio_message)
  ∧ (∀ (c : Audio.AudioContextType) (outer : list Audio.AudioContextType),
       Audio.useAudio (c :: outer) = inr c)
  ∧ (∀ (p : Audio.provider) (outer : list Audio.AudioContextType),
       ∃ c, Audio.useAudio (Audio.context_value p :: outer) = inr c
            ∧ Audio.ctx_audio c = Audio.audio p).
Proof.
  split; [reflexivity |]. split; [reflexivity |].
  intros p outer. eexists. split; reflexivity.
Qed.

(** ** Debounce *)

Section DebounceFacts.
Import Debounce.
Context {T : Type} `{EqDecision T}.
Implicit Types (h : hook T) (tr : list (event T)) (v : T) (d ms : nat).

Lemma debounce_run_app h tr1 tr2 : run h (tr1 ++ tr2) = run (run h tr1) tr2.
Proof. unfold run. apply fold_left_app. Qed.

Lemma outputs_app h tr1 tr2 :
  outputs h (tr1 ++ tr2) = outputs h tr1 ++ outputs (run h tr1) tr2.
Proof.
  revert h. induction tr1 as [| e tr1 IH]; intros h; [reflexivity |].
  simpl. rewrite IH. reflexivity.
Qed.

(** A render whose arguments differ from the previous ones clears the pending
    timer and arms a new one for the full delay; the output is untouched. *)
Lemma render_new_input h v d :
  v ≠ value h ∨ d ≠ delay h →
  render v d h = Hook v d (debouncedValue h) (Some (v, d)).
Proof.
  intros Hnew. unfold render.
  destruct (decide (v = value h ∧ d = delay h)) as [[? ?] | _]; [| reflexivity].
  destruct Hnew; congruence.
Qed.

(** While the pending timer is not due, time passing changes nothing but the
    time left. *)
Lemma elapse_waiting (ts : list nat) : ∀ h w due,
  timeout h = Some (w, due) → (sum_list ts < due)%nat →
  run h (map Elapse ts)
    = Hook (value h) (delay h) (debouncedValue h) (Some (w, (due - sum_list ts)%nat))
  ∧ Forall (λ o, o = debouncedValue h) (outputs h (map Elapse ts)).
Proof.
  induction ts as [| t ts IH]; intros h w due Hto Hlt; simpl in *.
  - split; [| constructor]. destruct h; simpl in *. rewrite Hto, Nat.sub_0_r. reflexivity.
  - assert (Hstep : elapse t h
        = Hook (value h) (delay h) (debouncedValue h) (Some (w, (due - t)%nat))).
    { unfold elapse. rewrite Hto.
      destruct (due <=? t)%nat eqn:Hle; [apply Nat.leb_le in Hle; lia | reflexivity]. }
    destruct (IH (elapse t h) w (due - t)%nat) as [Hrun Hout].
    { rewrite Hstep. reflexivity. }
    { lia. }
    change (run h (Elapse t :: map Elapse ts)) with (run (elapse t h) (map Elapse ts)).
    rewrite Hrun. rewrite Hstep in *. simpl in *. split.
    + f_equal. f_equal. f_equal. lia.
    + constructor; [reflexivity | exact Hout].
Qed.

(** With no pending timer, time passing changes nothing. *)
Lemma elapse_idle (ts : list nat) : ∀ h,
  timeout h = None →
  run h (map Elapse ts) = h ∧ Forall (λ o, o = debouncedValue h) (outputs h (map Elapse ts)).
Proof.
  induction ts as [| t ts IH]; intros h Hto; simpl; [split; [reflexivity | constructor] |].
  assert (Hstep : elapse t h = h) by (unfold elapse; rewrite Hto; reflexivity).
  change (run h (Elapse t :: map Elapse ts)) with (run (elapse t h) (map Elapse ts)).
  rewrite Hstep. destruct (IH h Hto) as [Hrun Hout].
  split; [exact Hrun | constructor; [reflexivity | exact Hout]].
Qed.

(** Time passing with a timer pending for [w]: the output is the old one
    until the timer is due, and [w] from then on. *)
Lemma elapse_pending (ts : list nat) : ∀ h w due,
  timeout h = Some (w, due) →
  Forall (λ o, o = debouncedValue h ∨ o = w) (outputs h (map Elapse ts))
  ∧ ((due <= sum_list ts)%nat → ts ≠ [] → debouncedValue (run h (map Elapse ts)) = w)
  ∧ ((sum_list ts < due)%nat → debouncedValue (run h (map Elapse ts)) = debouncedValue h).
Proof.
  induction ts as [| t ts IH]; intros h w due Hto.
  - simpl. repeat split; [constructor | congruence].
  - change (run h (map Elapse (t :: ts))) with (run (elapse t h) (map Elapse ts)).
    change (outputs h (map Elapse (t :: ts)))
      with (debouncedValue (elapse t h) :: outputs (elapse t h) (map Elapse ts)).
    simpl sum_list.
    unfold elapse. rewrite Hto.
    destruct (due <=? t)%nat eqn:Hle.
    + apply Nat.leb_le in Hle.
      destruct (elapse_idle ts (Hook (value h) (delay h) w None) eq_refl) as [Hrun Hout].
      rewrite Hrun. simpl in *. repeat split.
      * constructor; [right; reflexivity |].
        eapply Forall_impl; [exact Hout |]. simpl. intros o ->. right. reflexivity.
      * lia.
    + apply Nat.leb_gt in Hle.
      destruct (IH (Hook (value h) (delay h) (debouncedValue h) (Some (w, (due - t)%nat)))
                   w (due - t)%nat eq_refl) as (Hout & Hfire & Hwait).
      simpl in *. repeat split.
      * constructor; [left; reflexivity | exact Hout].
      * intros Hdue _. apply Hfire; [lia |]. destruct ts; [simpl in *; lia | discriminate].
      * intros Hlt. apply Hwait. lia.
Qed.

Lemma in_step_mount v d : in_step (v, d, 0%nat) (mount v d).
Proof.
  split; [reflexivity |]. split; [reflexivity |].
  simpl. intros w due [= <- <-]. split; [reflexivity | lia].
Qed.

Lemma in_step_step st h (e : event T) :
  in_step st h → in_step (input_step st e) (step h e).
Proof.
  intros (Hv & Hd & Hto). destruct e as [v d | ms]; simpl.
  - unfold render. rewrite Hv, Hd.
    destruct (decide (v = st.1.1 ∧ d = st.1.2)).
    + split; [exact Hv |]. split; [exact Hd | exact Hto].
    + split; [reflexivity |]. split; [reflexivity |].
      simpl. intros w due [= <- <-]. split; [reflexivity | lia].
  - unfold elapse. destruct (timeout h) as [[w due] |] eqn:Hpend.
    + destruct (Hto w due eq_refl) as [-> Hdue].
      destruct (due <=? ms)%nat eqn:Hle.
      * split; [exact Hv |]. split; [exact Hd |]. simpl. intros w' due' [=].
      * apply Nat.leb_gt in Hle.
        split; [exact Hv |]. split; [exact Hd |].
        simpl. intros w' due' [= <- <-]. split; [reflexivity | lia].
    + split; [exact Hv |]. split; [exact Hd |].
      rewrite Hpend. intros w' due' [=].
Qed.

Lemma in_step_run tr : ∀ st h,
  in_step st h → in_step (fold_left input_step tr st) (run h tr).
Proof.
  induction tr as [| e tr IH]; intros st h Hin; [exact Hin |].
  simpl. apply IH, in_step_step, Hin.
Qed.

(** If an event changes the output, it is the passing of time, it makes the
    unchanged time of the input reach the delay, and the new output is that
    input. *)
Lemma output_change st h (e : event T) :
  in_step st h → debouncedValue (step h e) ≠ debouncedValue h →
  ∃ ms, e = Elapse ms ∧ (st.1.2 <= st.2 + ms)%nat ∧ debouncedValue (step h e) = st.1.1.
Proof.
  intros (Hv & Hd & Hto) Hchg. destruct e as [v d | ms]; simpl in *.
  - exfalso. apply Hchg. unfold render. case_decide; reflexivity.
  - exists ms. split; [reflexivity |].
    unfold elapse in *. destruct (timeout h) as [[w due] |]; [| congruence].
    destruct (Hto w due eq_refl) as [-> Hdue].
    destruct (due <=? ms)%nat eqn:Hle; simpl in *; [| congruence].
    apply Nat.leb_le in Hle. split; [lia | reflexivity].
Qed.

End DebounceFacts.

(** C9, as the code has it.  (1) An input that differs from the previous one
    cancels the pending update and arms the timer for the full delay, without
    touching the output.  (2) When a new input [v1] is followed by a
    different input [v2] before the delay [d] has passed, the update to [v1]
    is never applied: every output seen from the arrival of [v1] on is either
    the output that was current when [v1] arrived or [v2]; it is the former
    until [v2] has been unchanged for [d], and [v2] from then on; so [v1] is
    not seen unless it already was the output.  (3) From mount on, the output
    changes only when time passes, the input has then been unchanged for the
    full delay, and the new output is that input. *)
Theorem debounce_restart_and_settle {T : Type} `{EqDecision T} :
  (∀ (h : Debounce.hook T) (v : T) (d : nat),
     v ≠ Debounce.value h ∨ d ≠ Debounce.delay h →
     Debounce.timeout (Debounce.render v d h) = Some (v, d)
     ∧ Debounce.useDebounce (Debounce.render v d h) = Debounce.useDebounce h)
  ∧ (∀ (h : Debounce.hook T) (v1 v2 : T) (d : nat) (ts1 ts2 : list nat),
     v1 ≠ Debounce.value h → v2 ≠ v1 → (sum_list ts1 < d)%nat →
     let tr := Debounce.Render v1 d :: map Debounce.Elapse ts1
               ++ Debounce.Render v2 d :: map Debounce.Elapse ts2 in
     Forall (λ o, o = Debounce.useDebounce h ∨ o = v2) (Debounce.outputs h tr)
     ∧ (Debounce.useDebounce h ≠ v1 → v1 ∉ Debounce.outputs h tr)
     ∧ ((sum_list ts2 < d)%nat →
          Debounce.useDebounce (Debounce.run h tr) = Debounce.useDebounce h)
     ∧ ((d <= sum_list ts2)%nat → Debounce.useDebounce (Debounce.run h tr) = v2))
  ∧ (∀ (v0 : T) (d0 : nat) (tr : list (Debounce.event T)) (e : Debounce.event T),
     let h := Debounce.run (Debounce.mount v0 d0) tr in
     let st := Debounce.input_after v0 d0 tr in
     Debounce.useDebounce (Debounce.step h e) ≠ Debounce.useDebounce h →
     ∃ ms, e = Debounce.Elapse ms ∧ (st.1.2 <= st.2 + ms)%nat
           ∧ Debounce.useDebounce (Debounce.step h e) = st.1.1).
Proof.
  split; [| split].
  - intros h v d Hnew. rewrite (render_new_input h v d Hnew). split; reflexivity.
  - intros h v1 v2 d ts1 ts2 Hv1 Hv2 Hd tr.
    set (o := Debounce.debouncedValue h).
    set (h1 := Debounce.Hook v1 d o (Some (v1, d))).
    assert (E1 : Debounce.render v1 d h = h1) by (apply render_new_input; left; exact Hv1).
    destruct (elapse_waiting ts1 h1 v1 d eq_refl Hd) as [E2 O2]. simpl in E2, O2.
    set (h2 := Debounce.Hook v1 d o (Some (v1, (d - sum_list ts1)%nat))) in *.
    set (h3 := Debounce.Hook v2 d o (Some (v2, d))).
    assert (E3 : Debounce.render v2 d h2 = h3) by (apply render_new_input; left; exact Hv2).
    destruct (elapse_pending ts2 h3 v2 d eq_refl) as (O4 & Hfire & Hwait). simpl in O4, Hfire, Hwait.
    assert (Eout : Debounce.outputs h tr
      = o :: Debounce.outputs h1 (map Debounce.Elapse ts1)
          ++ o :: Debounce.outputs h3 (map Debounce.Elapse ts2)).
    { unfold tr. simpl. rewrite E1. f_equal. rewrite outputs_app, E2. simpl. rewrite E3.
      reflexivity. }
    assert (Erun : Debounce.run h tr = Debounce.run h3 (map Debounce.Elapse ts2)).
    { unfold tr.
      change (Debounce.run h (Debounce.Render v1 d :: ?l))
        with (Debounce.run (Debounce.render v1 d h) l).
      rewrite E1, debounce_run_app, E2.
      change (Debounce.run h2 (Debounce.Render v2 d :: ?l))
        with (Debounce.run (Debounce.render v2 d h2) l).
      rewrite E3. reflexivity. }
    assert (Hall : Forall (λ x, x = o ∨ x = v2) (Debounce.outputs h tr)).
    { rewrite Eout. constructor; [left; reflexivity |].
      apply Forall_app. split.
      - eapply Forall_impl; [exact O2 |]. simpl. intros x ->. left. reflexivity.
      - constructor; [left; reflexivity | exact O4]. }
    unfold Debounce.useDebounce. fold o. repeat split.
    + exact Hall.
    + intros Ho Hin. rewrite Forall_forall in Hall.
      destruct (Hall v1 Hin) as [-> | ->]; congruence.
    + intros Hlt. rewrite Erun. apply Hwait, Hlt.
    + intros Hge. rewrite Erun. apply Hfire; [exact Hge |].
      destruct ts2; [simpl in *; lia | discriminate].
  - intros v0 d0 tr e h st Hchg.
    apply (output_change st h e); [| exact Hchg].
    apply in_step_run, in_step_mount.
Qed.

Lemma debounce_restart_and_settle_witness :
  let h := Debounce.mount "r"%string Debounce.default_delay in
  let tr := Debounce.Render "ru"%string 500%nat :: map Debounce.Elapse [100%nat; 200%nat]
            ++ Debounce.Render "rus"%string 500%nat :: map Debounce.Elapse [499%nat; 1%nat] in
  "ru"%string ≠ Debounce.value h ∧ "rus"%string ≠ "ru"%string
  ∧ (sum_list [100%nat; 200%nat] < 500)%nat
  ∧ Debounce.useDebounce h ≠ "ru"%string
  ∧ Debounce.outputs h tr = ["r"; "r"; "r"; "r"; "r"; "rus"]%string
  ∧ "ru"%string ∉ Debounce.outputs h tr.
Proof.
  intros h tr.
  assert (H1 : "ru"%string ≠ Debounce.value h) by (simpl; discriminate).
  assert (H2 : "rus"%string ≠ "ru"%string) by discriminate.
  assert (H3 : (sum_list [100%nat; 200%nat] < 500)%nat) by (simpl; lia).
  assert (H4 : Debounce.useDebounce h ≠ "ru"%string) by (simpl; discriminate).
  repeat (split; [assumption |]). split; [reflexivity |].
  exact (proj1 (proj2 (proj1 (proj2 debounce_restart_and_settle)
           h "ru"%string "rus"%string 500%nat
           [100%nat; 200%nat] [499%nat; 1%nat] H1 H2 H3)) H4).
Defined.

(** C9, as stated, fails: the output is seen to equal [v1] whenever it
    already held that value.  The hook is mounted with input a, the input
    becomes b, then a again ([v1]) and, 100 ms later, c ([v2]): the output is
    a all along and turns to c only after the delay.  Likewise a hook mounted
    with input h shows h at once, although he follows within the delay. *)
Lemma debounce_first_value_observed :
  (let h := Debounce.run (Debounce.mount "a" 500%nat)
              [Debounce.Elapse 100%nat; Debounce.Render "b" 500%nat; Debounce.Elapse 100%nat] in
   let tr := Debounce.Render "a" 500%nat :: map Debounce.Elapse [100%nat]
             ++ Debounce.Render "c" 500%nat :: map Debounce.Elapse [500%nat] in
   "a" ≠ Debounce.value h ∧ "c" ≠ "a" ∧ (sum_list [100%nat] < 500)%nat
   ∧ Debounce.outputs h tr = ["a"; "a"; "a"; "c"]
   ∧ "a" ∈ Debounce.outputs h tr)%string
  ∧ (let h := Debounce.mount "h" 500%nat in
     let tr := [Debounce.Elapse 100%nat; Debounce.Render "he" 500%nat; Debounce.Elapse 500%nat] in
     Debounce.useDebounce h = "h"
     ∧ Debounce.outputs h tr = ["h"; "h"; "he"]
     ∧ "h" ∈ Debounce.outputs h tr)%string.
Proof.
  split; [split; [| split; [| split; [| split]]] | split; [| split]].
  - simpl. discriminate.
  - discriminate.
  - simpl. lia.
  - reflexivity.
  - apply list_elem_of_here.
  - reflexivity.
  - reflexivity.
  - apply list_elem_of_here.
Qed.

(** ** Sorting *)

Section SortFacts.
Context {A : Type}.

Lemma insert_perm (compareFn : A → A → Z) (x : A) (l : list A) :
  Js.insert compareFn x l ≡ₚ x :: l.
Proof.
  induction l as [| y l IH]; simpl; [reflexivity |].
  destruct (compareFn x y <=? 0); [reflexivity |].
  rewrite IH. apply perm_swap.
Qed.

(** Sorting rearranges and neither drops nor repeats, whatever the comparator. *)
Lemma sort_perm (compareFn : A → A → Z) (l : list A) : Js.sort compareFn l ≡ₚ l.
Proof.
  induction l as [| x l IH]; simpl; [reflexivity |].
  rewrite insert_perm, IH. reflexivity.
Qed.

(** Both comparators of the ranking have the shape [(a, b) => key b - key a];
    sorting with such a comparator yields descending keys. *)
Lemma insert_sorted (key : A → Z) (x : A) (l : list A) :
  StronglySorted (λ a b, key b ≤ key a) l →
  StronglySorted (λ a b, key b ≤ key a) (Js.insert (λ a b, key b - key a) x l).
Proof.
  induction 1 as [| y l Hl IH Hy]; simpl.
  - repeat constructor.
  - destruct (key y - key x <=? 0) eqn:Hc.
    + apply Z.leb_le in Hc.
      constructor; [constructor; assumption |].
      constructor; [lia |].
      eapply Forall_impl; [exact Hy |]. simpl. intros z Hz. lia.
    + apply Z.leb_gt in Hc.
      constructor; [exact IH |].
      rewrite insert_perm. constructor; [lia | exact Hy].
Qed.

Lemma sort_sorted (key : A → Z) (l : list A) :
  StronglySorted (λ a b, key b ≤ key a) (Js.sort (λ a b, key b - key a) l).
Proof.
  induction l as [| x l IH]; simpl; [constructor | apply insert_sorted, IH].
Qed.

End SortFacts.

(** ** User gateway *)

(** Closes a decidable goal about concrete data by evaluation. *)
Ltac by_evaluation := apply (bool_decide_unpack _); vm_compute; exact I.

Section GatewayFacts.
Import Store Users.
Implicit Types (s : db) (u : user) (p : podcast).

Lemma by_clerkId_elem (m : gmap string user) (cid i : string) u :
  (i, u) ∈ by_clerkId cid (map_to_list m) ↔ m !! i = Some u ∧ clerkId u = cid.
Proof.
  unfold by_clerkId. rewrite list_elem_of_filter, elem_of_map_to_list. simpl. tauto.
Qed.

Lemma by_authorId_elem (m : gmap string podcast) (aid i : string) p :
  (i, p) ∈ by_authorId aid (map_to_list m) ↔ m !! i = Some p ∧ authorId p = aid.
Proof.
  unfold by_authorId. rewrite list_elem_of_filter, elem_of_map_to_list. simpl. tauto.
Qed.

Lemma by_clerkId_NoDup (m : gmap string user) (cid : string) :
  NoDup (by_clerkId cid (map_to_list m)).
Proof. apply NoDup_filter, NoDup_map_to_list. Qed.

Lemma by_clerkId_nil s (cid : string) :
  by_clerkId cid (map_to_list (users s)) = [] ↔ ¬ known cid s.
Proof.
  split.
  - intros Hnil (i & u & Hi & Hu).
    assert (Hin : (i, u) ∈ by_clerkId cid (map_to_list (users s)))
      by (apply by_clerkId_elem; split; assumption).
    rewrite Hnil in Hin. inversion Hin.
  - intros Hnot. destruct (by_clerkId cid (map_to_list (users s))) as [| [i u] l] eqn:E;
      [reflexivity |].
    exfalso. apply Hnot. exists i, u. apply by_clerkId_elem. rewrite E. left.
Qed.

Lemma list_singleton {X : Type} (l : list X) (x : X) :
  NoDup l → x ∈ l → (∀ y, y ∈ l → y = x) → l = [x].
Proof.
  intros Hnd Hin Hall. destruct l as [| a l]; [inversion Hin |].
  assert (a = x) as -> by (apply Hall; left).
  destruct l as [| b l]; [reflexivity |].
  assert (b = x) as -> by (apply Hall; right; left).
  apply NoDup_cons in Hnd as [Hnotin _]. exfalso. apply Hnotin. left.
Qed.

(** When exactly one document carries the id, the filter yields it alone. *)
Lemma by_clerkId_singleton (m : gmap string user) (cid i : string) u :
  m !! i = Some u → clerkId u = cid →
  (∀ j v, m !! j = Some v → clerkId v = cid → j = i) →
  by_clerkId cid (map_to_list m) = [(i, u)].
Proof.
  intros Hi Hu Huniq. apply list_singleton.
  - apply by_clerkId_NoDup.
  - apply by_clerkId_elem. split; assumption.
  - intros [j v] Hjv. apply by_clerkId_elem in Hjv as [Hj Hv].
    assert (j = i) as -> by (eapply Huniq; eassumption).
    congruence.
Qed.

Lemma NoDup_fmap_inj_on {X Y : Type} (f : X → Y) (l : list X) :
  NoDup (f <$> l) → ∀ x y, x ∈ l → y ∈ l → f x = f y → x = y.
Proof.
  induction l as [| a l IH]; intros Hnd x y Hx Hy Hf; [inversion Hx |].
  rewrite fmap_cons in Hnd. apply NoDup_cons in Hnd as [Ha Hnd].
  apply elem_of_cons in Hx as [-> | Hx]; apply elem_of_cons in Hy as [-> | Hy].
  - reflexivity.
  - exfalso. apply Ha. rewrite Hf. apply list_elem_of_fmap_2, Hy.
  - exfalso. apply Ha. rewrite <- Hf. apply list_elem_of_fmap_2, Hx.
  - apply IH; assumption.
Qed.

(** The invariant, read on the table: documents with the same [clerkId] are
    the same document. *)
Lemma unique_clerkIds_lookup s :
  unique_clerkIds s ↔
  ∀ i j u v, users s !! i = Some u → users s !! j = Some v →
             clerkId u = clerkId v → i = j.
Proof.
  unfold unique_clerkIds. split.
  - intros Hnd i j u v Hi Hj Huv.
    assert (E : (i, u) = (j, v)).
    { apply (NoDup_fmap_inj_on _ _ Hnd); [apply elem_of_map_to_list .. |]; assumption. }
    congruence.
  - intros Huniq. apply NoDup_fmap_2_strong; [| apply NoDup_map_to_list].
    intros [i u] [j v] Hi Hj Huv. simpl in Huv.
    apply elem_of_map_to_list in Hi, Hj.
    assert (i = j) as -> by (eapply Huniq; eassumption).
    congruence.
Qed.

Lemma by_clerkId_unique s (cid i : string) u :
  unique_clerkIds s → users s !! i = Some u → clerkId u = cid →
  by_clerkId cid (map_to_list (users s)) = [(i, u)].
Proof.
  intros Huniq Hi Hu. apply by_clerkId_singleton; [assumption .. |].
  intros j v Hj Hv.
  apply (proj1 (unique_clerkIds_lookup s) Huniq j i v u Hj Hi). congruence.
Qed.

(** How [createUser] runs, by the number of documents that carry the id. *)
Lemma createUser_run s (cid em img nm : string) :
  createUser cid em img nm s =
    match by_clerkId cid (map_to_list (users s)) with
    | [] => (inr (), Db (<[fresh (dom (users s)) := User (now s) cid em img nm]> (users s))
                        (podcasts s) (now s))
    | [_] => (inl AlreadyExists, s)
    | _ => (inl NotUnique, s)
    end.
Proof.
  unfold createUser, mbind, M_bind, bind, query_users, unique. simpl.
  destruct (by_clerkId cid (map_to_list (users s))) as [| x [| y l]]; reflexivity.
Qed.

Lemma getUserById_run s (cid : string) :
  getUserById cid s =
    match by_clerkId cid (map_to_list (users s)) with
    | [] => (inl NotFound, s)
    | [x] => (inr x, s)
    | _ => (inl NotUnique, s)
    end.
Proof.
  unfold getUserById, mbind, M_bind, bind, query_users, unique. simpl.
  destruct (by_clerkId cid (map_to_list (users s))) as [| x [| y l]]; reflexivity.
Qed.

Lemma deleteUser_run s (cid : string) :
  deleteUser cid s =
    match by_clerkId cid (map_to_list (users s)) with
    | [] => (inl NotFound, s)
    | [x] => delete_user x.1 s
    | _ => (inl NotUnique, s)
    end.
Proof.
  unfold deleteUser, mbind, M_bind, bind, query_users, unique. simpl.
  destruct (by_clerkId cid (map_to_list (users s))) as [| x [| y l]]; reflexivity.
Qed.

Lemma fresh_user_id s : users s !! fresh (dom (users s)) = None.
Proof. apply not_elem_of_dom, is_fresh. Qed.

(** [createUser] on a store with no document for the id. *)
Lemma createUser_new s (cid em img nm : string) :
  ¬ known cid s →
  createUser cid em img nm s
  = (inr (), Db (<[fresh (dom (users s)) := User (now s) cid em img nm]> (users s))
                (podcasts s) (now s)).
Proof.
  intros Hnot. apply by_clerkId_nil in Hnot. rewrite createUser_run, Hnot. reflexivity.
Qed.

(** After a successful [createUser] exactly one document carries the id. *)
Lemma by_clerkId_created s (cid em img nm : string) :
  ¬ known cid s →
  by_clerkId cid
    (map_to_list (<[fresh (dom (users s)) := User (now s) cid em img nm]> (users s)))
  = [(fresh (dom (users s)), User (now s) cid em img nm)].
Proof.
  intros Hnot. apply by_clerkId_singleton.
  - apply lookup_insert_eq.
  - reflexivity.
  - intros j v Hj Hv. destruct (decide (j = fresh (dom (users s)))) as [| Hne]; [assumption |].
    rewrite lookup_insert_ne in Hj by congruence.
    exfalso. apply Hnot. exists j, v. split; assumption.
Qed.

End GatewayFacts.

Section GatewayInvariant.
Import Store Users.

Lemma unique_clerkIds_empty (t : Z) (ps : gmap string podcast) :
  unique_clerkIds (Db ∅ ps t).
Proof.
  unfold unique_clerkIds. simpl. rewrite map_to_list_empty. constructor.
Qed.

(** [createUser] keeps the invariant, whether it succeeds or fails. *)
Lemma createUser_unique_clerkIds (s : db) (cid em img nm : string) :
  unique_clerkIds s → unique_clerkIds (createUser cid em img nm s).2.
Proof.
  intros Huniq. rewrite createUser_run.
  destruct (by_clerkId cid (map_to_list (users s))) as [| x [| y l]] eqn:E;
    [| exact Huniq ..].
  apply by_clerkId_nil in E.
  apply unique_clerkIds_lookup. simpl. intros i j u v Hi Hj Huv.
  pose proof (proj1 (unique_clerkIds_lookup s) Huniq) as Hold.
  destruct (decide (i = fresh (dom (users s)))) as [-> | Hi'];
    destruct (decide (j = fresh (dom (users s)))) as [-> | Hj'].
  - reflexivity.
  - rewrite lookup_insert_eq in Hi. rewrite lookup_insert_ne in Hj by congruence.
    exfalso. apply E. exists j, v. split; [assumption |]. injection Hi as <-. simpl in Huv. congruence.
  - rewrite lookup_insert_eq in Hj. rewrite lookup_insert_ne in Hi by congruence.
    exfalso. apply E. exists i, u. split; [assumption |]. injection Hj as <-. simpl in Huv. congruence.
  - rewrite lookup_insert_ne in Hi, Hj by congruence. eapply Hold; eassumption.
Qed.

(** So does [deleteUser]. *)
Lemma deleteUser_unique_clerkIds (s : db) (cid : string) :
  unique_clerkIds s → unique_clerkIds (deleteUser cid s).2.
Proof.
  intros Huniq. rewrite deleteUser_run.
  destruct (by_clerkId cid (map_to_list (users s))) as [| x [| y l]]; [exact Huniq | | exact Huniq].
  unfold delete_user. destruct (users s !! x.1) as [x0 |]; [| exact Huniq].
  apply unique_clerkIds_lookup. simpl. intros i j u v Hi Hj Huv.
  apply lookup_delete_Some in Hi as [_ Hi]. apply lookup_delete_Some in Hj as [_ Hj].
  eapply (proj1 (unique_clerkIds_lookup s) Huniq); eassumption.
Qed.

End GatewayInvariant.

(** C4.  [createUser] fails exactly when a document with that [clerkId] is
    present, and a failing call leaves the store as it was; on a store that
    keeps [clerkId] unique the failure is [AlreadyExists].  When no such
    document is present the call returns nothing and adds one document, under
    a fresh [_id], holding exactly the given fields; a second call with the
    same id then fails with [AlreadyExists] and the stored document keeps the
    fields of the first call. *)
Theorem createUser_spec (s : Store.db) (cid em img nm : string) :
  ((∃ e, (Users.createUser cid em img nm s).1 = inl e) ↔ Users.known cid s)
  ∧ ((Users.createUser cid em img nm s).1 = inl Users.AlreadyExists → Users.known cid s)
  ∧ (Users.unique_clerkIds s →
       ((Users.createUser cid em img nm s).1 = inl Users.AlreadyExists ↔ Users.known cid s))
  ∧ (∀ e, (Users.createUser cid em img nm s).1 = inl e →
          (Users.createUser cid em img nm s).2 = s)
  ∧ (¬ Users.known cid s →
       let i := fresh (dom (Store.users s)) in
       let s1 := Store.Db (<[i := Store.User (Store.now s) cid em img nm]> (Store.users s))
                          (Store.podcasts s) (Store.now s) in
       Store.users s !! i = None
       ∧ Users.createUser cid em img nm s = (inr (), s1)
       ∧ ∀ em' img' nm' : string,
           Users.createUser cid em' img' nm' s1 = (inl Users.AlreadyExists, s1)
           ∧ Store.users s1 !! i = Some (Store.User (Store.now s) cid em img nm)).
Proof.
  rewrite !createUser_run.
  destruct (Users.by_clerkId cid (map_to_list (Store.users s))) as [| [i u] [| y l]] eqn:E.
  - assert (Hnot : ¬ Users.known cid s) by (apply by_clerkId_nil; exact E).
    split; [| split; [| split; [| split]]].
    + split; [intros [e He]; discriminate | intros Hk; contradiction].
    + discriminate.
    + intros _. split; [discriminate | intros Hk; contradiction].
    + discriminate.
    + intros _ j s1. split; [apply fresh_user_id |]. split; [reflexivity |].
      intros em' img' nm'. rewrite createUser_run. unfold s1. simpl.
      unfold j. rewrite (by_clerkId_created s cid em img nm Hnot).
      split; [reflexivity | apply lookup_insert_eq].
  - assert (Hk : Users.known cid s).
    { exists i, u. apply by_clerkId_elem. rewrite E. left. }
    split; [| split; [| split; [| split]]].
    + split; [intros _; exact Hk | intros _; eexists; reflexivity].
    + intros _. exact Hk.
    + intros _. split; [intros _; exact Hk | reflexivity].
    + reflexivity.
    + intros Hnot. contradiction.
  - assert (Hk : Users.known cid s).
    { exists i, u. apply by_clerkId_elem. rewrite E. left. }
    split; [| split; [| split; [| split]]].
    + split; [intros _; exact Hk | intros _; eexists; reflexivity].
    + discriminate.
    + intros Huniq. exfalso.
      destruct Hk as (i' & u' & Hi' & Hu').
      rewrite (by_clerkId_unique s cid i' u' Huniq Hi' Hu') in E. discriminate.
    + reflexivity.
    + intros Hnot. contradiction.
Qed.

Lemma createUser_spec_witness :
  Users.unique_clerkIds Samples.library
  ∧ ¬ Users.known "C" Samples.library
  ∧ (Users.createUser "A" "x@example.com" "x.png" "X" Samples.library).1
    = inl Users.AlreadyExists
  ∧ (Users.createUser "C" "cy@example.com" "cy.png" "Cy" Samples.library).1 = inr ().
Proof.
  assert (Hu : Users.unique_clerkIds Samples.library).
  { by_evaluation. }
  assert (Hn : ¬ Users.known "C" Samples.library).
  { apply by_clerkId_nil. vm_compute. reflexivity. }
  split; [exact Hu |]. split; [exact Hn |]. split.
  - apply (proj1 (proj2 (proj2
             (createUser_spec Samples.library "A" "x@example.com" "x.png" "X"))) Hu).
    exists "u1"%string, Samples.ann. split; reflexivity.
  - destruct (proj2 (proj2 (proj2 (proj2
             (createUser_spec Samples.library "C" "cy@example.com" "cy.png" "Cy")))) Hn)
      as (_ & Hrun & _).
    rewrite Hrun. reflexivity.
Defined.

(** C5.  On a store with no document for [id], [createUser] followed by
    [getUserById] with the same id returns a document whose [clerkId],
    [email], [imageUrl] and [name] are the arguments of the creation; and
    [getUserById] fails with [NotFound] exactly when no document carries the
    id.  It never changes the store. *)
Theorem create_then_getUserById :
  (∀ (s : Store.db) (cid em img nm : string),
     ¬ Users.known cid s →
     ∃ (i : string) (u : Store.user) (s1 : Store.db),
       Users.createUser cid em img nm s = (inr (), s1)
       ∧ Users.getUserById cid s1 = (inr (i, u), s1)
       ∧ Store.clerkId u = cid ∧ Store.email u = em
       ∧ Store.imageUrl u = img ∧ Store.name u = nm)
  ∧ (∀ (s : Store.db) (cid : string),
       ((Users.getUserById cid s).1 = inl Users.NotFound ↔ ¬ Users.known cid s)
       ∧ (Users.getUserById cid s).2 = s).
Proof.
  split.
  - intros s cid em img nm Hnot.
    eexists _, _, _. split; [apply createUser_new, Hnot |].
    rewrite getUserById_run. simpl.
    rewrite (by_clerkId_created s cid em img nm Hnot).
    repeat split; reflexivity.
  - intros s cid. rewrite getUserById_run.
    destruct (Users.by_clerkId cid (map_to_list (Store.users s))) as [| [i u] l] eqn:E.
    + split; [| reflexivity]. split; [intros _; apply by_clerkId_nil, E | reflexivity].
    + assert (Hk : Users.known cid s).
      { exists i, u. apply by_clerkId_elem. rewrite E. left. }
      destruct l; (split; [| reflexivity]); (split; [discriminate | intros Hnot; contradiction]).
Qed.

Lemma create_then_getUserById_witness :
  ¬ Users.known "C" Samples.library
  ∧ ∃ (i : string) (u : Store.user) (s1 : Store.db),
      Users.createUser "C" "cy@example.com" "cy.png" "Cy" Samples.library = (inr (), s1)
      ∧ Users.getUserById "C" s1 = (inr (i, u), s1)
      ∧ Store.clerkId u = "C"%string ∧ Store.email u = "cy@example.com"%string
      ∧ Store.imageUrl u = "cy.png"%string ∧ Store.name u = "Cy"%string.
Proof.
  assert (Hn : ¬ Users.known "C" Samples.library).
  { apply by_clerkId_nil. vm_compute. reflexivity. }
  split; [exact Hn |].
  exact (proj1 create_then_getUserById Samples.library
           "C"%string "cy@example.com"%string "cy.png"%string "Cy"%string Hn).
Defined.

(** C6.  [deleteUser] never touches the [podcasts] table.  When no user
    document carries the id it fails with [NotFound] and the store is as it
    was; when one does (on a store that keeps [clerkId] unique) it returns
    and the [users] table has lost exactly that document. *)
Theorem deleteUser_spec (s : Store.db) (cid : string) :
  Store.podcasts (Users.deleteUser cid s).2 = Store.podcasts s
  ∧ (¬ Users.known cid s → Users.deleteUser cid s = (inl Users.NotFound, s))
  ∧ (Users.unique_clerkIds s →
     ∀ (i : string) (u : Store.user),
       Store.users s !! i = Some u → Store.clerkId u = cid →
       let s1 := Store.Db (delete i (Store.users s)) (Store.podcasts s) (Store.now s) in
       Users.deleteUser cid s = (inr (), s1)
       ∧ Store.users s1 !! i = None
       ∧ ∀ j : string, j ≠ i → Store.users s1 !! j = Store.users s !! j).
Proof.
  rewrite !deleteUser_run. split; [| split].
  - destruct (Users.by_clerkId cid (map_to_list (Store.users s))) as [| x [| y l]];
      [reflexivity | | reflexivity].
    unfold Store.delete_user. destruct (Store.users s !! x.1); reflexivity.
  - intros Hnot. apply by_clerkId_nil in Hnot. rewrite Hnot. reflexivity.
  - intros Huniq i u Hi Hu s1.
    rewrite (by_clerkId_unique s cid i u Huniq Hi Hu).
    unfold Store.delete_user. simpl. rewrite Hi.
    split; [reflexivity |]. split.
    + apply lookup_delete_eq.
    + intros j Hj. apply lookup_delete_ne. congruence.
Qed.

Lemma deleteUser_spec_witness :
  Users.unique_clerkIds Samples.library
  ∧ ¬ Users.known "C" Samples.library
  ∧ Users.deleteUser "C" Samples.library = (inl Users.NotFound, Samples.library)
  ∧ (Users.deleteUser "B" Samples.library).1 = inr ()
  ∧ Store.users (Users.deleteUser "B" Samples.library).2 !! "u2"%string = None.
Proof.
  assert (Hu : Users.unique_clerkIds Samples.library).
  { by_evaluation. }
  assert (Hn : ¬ Users.known "C" Samples.library).
  { apply by_clerkId_nil. vm_compute. reflexivity. }
  split; [exact Hu |]. split; [exact Hn |]. split.
  - exact (proj1 (proj2 (deleteUser_spec Samples.library "C")) Hn).
  - destruct (proj2 (proj2 (deleteUser_spec Samples.library "B")) Hu
                "u2"%string Samples.bob eq_refl eq_refl) as (Hrun & Hgone & _).
    rewrite Hrun. split; [reflexivity | exact Hgone].
Defined.

Section CascadeFacts.
Import Store Users.

(** Patching, one after the other, documents that were just read from the
    table succeeds and rewrites exactly those documents. *)
Lemma cascade_run (f : podcast → podcast) (us : gmap string user) (t : Z)
    (l : list (string * podcast)) : ∀ m : gmap string podcast,
  NoDup l.*1 → (∀ i p, (i, p) ∈ l → m !! i = Some p) →
  ∃ (ys : list ()) (m' : gmap string podcast),
    mapM (λ p, patch_podcast p.1 f) l (Db us m t) = (inr ys, Db us m' t)
    ∧ ∀ k, m' !! k = if decide (k ∈ l.*1) then f <$> m !! k else m !! k.
Proof.
  induction l as [| [i p] l IH]; intros m Hnd Hin.
  - exists [], m. split; [reflexivity |]. intros k.
    destruct (decide (k ∈ ([] : list (string * podcast)).*1)) as [Hk |]; [inversion Hk | reflexivity].
  - rewrite fmap_cons in Hnd. apply NoDup_cons in Hnd as [Hi Hnd]. simpl in Hi.
    assert (Hp : m !! i = Some p) by (apply Hin; left).
    destruct (IH (<[i := f p]> m) Hnd) as (ys & m' & Hrun & Hm').
    { intros j q Hjq. rewrite lookup_insert_ne; [apply Hin; right; exact Hjq |].
      intros ->. apply Hi. apply (list_elem_of_fmap_2 fst _ _ Hjq). }
    exists (() :: ys), m'. split.
    + simpl. unfold mbind, M_bind, bind, patch_podcast at 1. simpl. rewrite Hp.
      unfold mbind, M_bind, bind in Hrun. simpl in Hrun. rewrite Hrun. reflexivity.
    + intros k. rewrite Hm'. rewrite fmap_cons. simpl.
      destruct (decide (k = i)) as [-> | Hne].
      * rewrite lookup_insert_eq, Hp.
        destruct (decide (i ∈ l.*1)); [contradiction |].
        destruct (decide (i ∈ i :: l.*1)) as [| Hni]; [reflexivity |].
        exfalso. apply Hni. left.
      * rewrite lookup_insert_ne by congruence.
        destruct (decide (k ∈ l.*1)) as [Hk | Hk];
          destruct (decide (k ∈ i :: l.*1)) as [Hk' | Hk']; try reflexivity.
        -- exfalso. apply Hk'. right. exact Hk.
        -- exfalso. apply elem_of_cons in Hk' as [? | ?]; contradiction.
Qed.

Lemma updateUser_run (s : db) (cid img em : string) :
  updateUser cid img em s =
    match by_clerkId cid (map_to_list (users s)) with
    | [] => (inl NotFound, s)
    | [x] =>
        (patch_user x.1 (set_profile img em);;
         all ← query_podcasts;
         mapM (λ p, patch_podcast p.1 (set_authorImageUrl img)) (by_authorId cid all);;
         ret ()) s
    | _ => (inl NotUnique, s)
    end.
Proof.
  unfold updateUser. unfold mbind at 1 2, M_bind at 1 2, bind at 1 2, query_users, unique. simpl.
  destruct (by_clerkId cid (map_to_list (users s))) as [| x [| y l]]; reflexivity.
Qed.

(** The run of [updateUser] when exactly one document carries the id. *)
Lemma updateUser_found (s : db) (cid img em i : string) (u : user) :
  by_clerkId cid (map_to_list (users s)) = [(i, u)] →
  updateUser cid img em s
  = (inr (), Db (<[i := set_profile img em u]> (users s))
                (cascade cid img <$> podcasts s) (now s)).
Proof.
  intros E. rewrite updateUser_run, E.
  assert (Hi : users s !! i = Some u).
  { apply (by_clerkId_elem (users s) cid i u). rewrite E. left. }
  destruct (cascade_run (set_authorImageUrl img) (<[i := set_profile img em u]> (users s))
              (now s) (by_authorId cid (map_to_list (podcasts s))) (podcasts s))
    as (ys & m' & Hrun & Hm').
  { eapply NoDup_fmap_fst; [| apply NoDup_filter, NoDup_map_to_list].
    intros k p q Hp Hq. apply by_authorId_elem in Hp as [Hp _], Hq as [Hq _]. congruence. }
  { intros k p Hp. apply by_authorId_elem in Hp as [Hp _]. exact Hp. }
  unfold mbind, M_bind, bind, patch_user, query_podcasts in *. simpl. rewrite Hi. simpl.
  rewrite Hrun. unfold ret. do 2 f_equal.
  apply map_eq. intros k. rewrite Hm', lookup_fmap.
  destruct (podcasts s !! k) as [p |] eqn:Hk; simpl.
  - unfold cascade.
    destruct (decide (authorId p = cid)) as [Ha | Ha];
      destruct (decide (k ∈ (by_authorId cid (map_to_list (podcasts s))).*1)) as [Hin | Hin];
      try reflexivity.
    + exfalso. apply Hin. apply (list_elem_of_fmap_2 fst _ (k, p)).
      apply by_authorId_elem. split; assumption.
    + exfalso. apply list_elem_of_fmap in Hin as ([k' q] & -> & Hq).
      apply by_authorId_elem in Hq as [Hq Hq']. simpl in Hk. congruence.
  - destruct (decide (k ∈ (by_authorId cid (map_to_list (podcasts s))).*1)); reflexivity.
Qed.

(** [updateUser] keeps the invariant: it never writes a [clerkId]. *)
Lemma updateUser_unique_clerkIds (s : db) (cid img em : string) :
  unique_clerkIds s → unique_clerkIds (updateUser cid img em s).2.
Proof.
  intros Huniq.
  destruct (by_clerkId cid (map_to_list (users s))) as [| [i u] [| y l]] eqn:E.
  - rewrite updateUser_run, E. exact Huniq.
  - rewrite (updateUser_found s cid img em i u E).
    assert (Hi : users s !! i = Some u).
    { apply (by_clerkId_elem (users s) cid i u). rewrite E. left. }
    apply unique_clerkIds_lookup. simpl. intros j k v w Hj Hk Hvw.
    pose proof (proj1 (unique_clerkIds_lookup s) Huniq) as Hold.
    assert (Hsame : ∀ j v, <[i := set_profile img em u]> (users s) !! j = Some v →
              ∃ v0, users s !! j = Some v0 ∧ clerkId v0 = clerkId v).
    { intros j' v' Hj'. destruct (decide (j' = i)) as [-> | Hne].
      - rewrite lookup_insert_eq in Hj'. injection Hj' as <-. exists u. split; [exact Hi | reflexivity].
      - rewrite lookup_insert_ne in Hj' by congruence. exists v'. split; [exact Hj' | reflexivity]. }
    destruct (Hsame j v Hj) as (v0 & Hj0 & Hv0).
    destruct (Hsame k w Hk) as (w0 & Hk0 & Hw0).
    apply (Hold j k v0 w0 Hj0 Hk0). congruence.
  - rewrite updateUser_run, E. exact Huniq.
Qed.

(** Whatever the gateway is asked to do, it keeps [clerkId] unique; in
    particular every store it builds from an empty [users] table is so. *)
Lemma perform_all_unique_clerkIds (cs : list call) : ∀ s : db,
  unique_clerkIds s → unique_clerkIds (perform_all cs s).
Proof.
  induction cs as [| c cs IH]; intros s Huniq; [exact Huniq |].
  apply IH. destruct c; simpl.
  - apply createUser_unique_clerkIds, Huniq.
  - apply updateUser_unique_clerkIds, Huniq.
  - apply deleteUser_unique_clerkIds, Huniq.
Qed.

Corollary reachable_unique_clerkIds (cs : list call) (ps : gmap string podcast) (t : Z) :
  unique_clerkIds (perform_all cs (Db ∅ ps t)).
Proof. apply perform_all_unique_clerkIds, unique_clerkIds_empty. Qed.

End CascadeFacts.

(** C1.  When no user document carries the id, [updateUser] fails with
    [NotFound] and the store is as it was.  When one does (on a store that
    keeps [clerkId] unique), the call returns; that user document has its
    [imageUrl] and [email] replaced by the arguments and its other fields
    kept, the other user documents are as before, and in the [podcasts] table
    exactly the documents whose [authorId] is the id have their
    [authorImageUrl] replaced by the new image. *)
Theorem updateUser_spec (s : Store.db) (cid img em : string) :
  (¬ Users.known cid s → Users.updateUser cid img em s = (inl Users.NotFound, s))
  ∧ (Users.unique_clerkIds s →
     ∀ (i : string) (u : Store.user),
       Store.users s !! i = Some u → Store.clerkId u = cid →
       ∃ s1 : Store.db,
         Users.updateUser cid img em s = (inr (), s1)
         ∧ Store.users s1
           = <[i := Store.User (Store.u_creationTime u) (Store.clerkId u) em img (Store.name u)]>
               (Store.users s)
         ∧ Store.podcasts s1 = Users.cascade cid img <$> Store.podcasts s
         ∧ (∀ (k : string) (p : Store.podcast),
              Store.podcasts s !! k = Some p → Store.authorId p = cid →
              ∃ p1, Store.podcasts s1 !! k = Some p1 ∧ Store.authorImageUrl p1 = img)
         ∧ (∀ (k : string) (p : Store.podcast),
              Store.podcasts s !! k = Some p → Store.authorId p ≠ cid →
              Store.podcasts s1 !! k = Some p)).
Proof.
  split.
  - intros Hnot. apply by_clerkId_nil in Hnot.
    rewrite updateUser_run, Hnot. reflexivity.
  - intros Huniq i u Hi Hu.
    pose proof (by_clerkId_unique s cid i u Huniq Hi Hu) as E.
    eexists. split; [apply (updateUser_found s cid img em i u E) |]. simpl.
    split; [reflexivity |]. split; [reflexivity |]. split.
    + intros k p Hk Ha. exists (Users.set_authorImageUrl img p).
      rewrite lookup_fmap, Hk. simpl. unfold Users.cascade.
      destruct (decide (Store.authorId p = cid)); [split; reflexivity | contradiction].
    + intros k p Hk Ha. rewrite lookup_fmap, Hk. simpl. unfold Users.cascade.
      destruct (decide (Store.authorId p = cid)); [contradiction | reflexivity].
Qed.

Lemma updateUser_spec_witness :
  Users.unique_clerkIds Samples.library
  ∧ ¬ Users.known "C" Samples.library
  ∧ Users.updateUser "C" "new.png" "new@example.com" Samples.library
    = (inl Users.NotFound, Samples.library)
  ∧ ∃ s1 : Store.db,
      Users.updateUser "A" "new.png" "new@example.com" Samples.library = (inr (), s1)
      ∧ Store.users s1 !! "u1"%string
        = Some (Store.User 10 "A" "new@example.com" "new.png" "Ann")
      ∧ (Store.authorImageUrl <$> Store.podcasts s1 !! "p1"%string) = Some "new.png"%string
      ∧ (Store.authorImageUrl <$> Store.podcasts s1 !! "p2"%string) = Some "new.png"%string
      ∧ Store.podcasts s1 !! "p4"%string = Some (Samples.show "Rust" "B" 100).
Proof.
  assert (Hu : Users.unique_clerkIds Samples.library).
  { by_evaluation. }
  assert (Hn : ¬ Users.known "C" Samples.library).
  { apply by_clerkId_nil. vm_compute. reflexivity. }
  split; [exact Hu |]. split; [exact Hn |]. split.
  - exact (proj1 (updateUser_spec Samples.library "C" "new.png" "new@example.com") Hn).
  - destruct (proj2 (updateUser_spec Samples.library "A" "new.png" "new@example.com") Hu
                "u1"%string Samples.ann eq_refl eq_refl)
      as (s1 & Hrun & Hus & Hps & _).
    exists s1. split; [exact Hrun |].
    rewrite Hus, Hps. repeat split; reflexivity.
Defined.

(** ** Ranking aggregation *)

Section RankingFacts.
Import Store Users.

(** A read-only computation mapped over a list returns the list of its
    results and leaves the store alone. *)
Lemma mapM_pure {X Y : Type} (f : X → M Y) (g : X → Y) (s : db) (l : list X) :
  (∀ x, f x s = (inr (g x), s)) → mapM f l s = (inr (g <$> l), s).
Proof.
  intros Hf. induction l as [| x l IH]; [reflexivity |].
  simpl. unfold mbind, M_bind, bind in *. rewrite Hf, IH. reflexivity.
Qed.

Lemma userEntry_run (s : db) (u : string * user) :
  userEntry u s = (inr (entry_of s u), s).
Proof. reflexivity. Qed.

Lemma getTopUserByPodcastCount_run (s : db) :
  getTopUserByPodcastCount s
  = (inr (Js.sort by_totalPodcasts (entry_of s <$> map_to_list (users s))), s).
Proof.
  unfold getTopUserByPodcastCount, mbind, M_bind, bind, query_users. simpl.
  rewrite (mapM_pure userEntry (entry_of s) s _ (userEntry_run s)). reflexivity.
Qed.

Lemma ranking_perm (s : db) :
  Js.sort by_totalPodcasts (entry_of s <$> map_to_list (users s))
  ≡ₚ entry_of s <$> map_to_list (users s).
Proof. apply sort_perm. Qed.

(** Every entry of the ranking is the entry of a user document. *)
Lemma ranking_elem (s : db) (e : topPodcaster) :
  e ∈ Js.sort by_totalPodcasts (entry_of s <$> map_to_list (users s)) ↔
  ∃ i u, users s !! i = Some u ∧ e = entry_of s (i, u).
Proof.
  rewrite ranking_perm, list_elem_of_fmap. split.
  - intros ([i u] & -> & Hin). exists i, u. split; [apply elem_of_map_to_list, Hin | reflexivity].
  - intros (i & u & Hi & ->). exists (i, u). split; [reflexivity | apply elem_of_map_to_list, Hi].
Qed.

End RankingFacts.

(** C2.  The ranking never fails and never writes.  It has one entry per
    user document.  The podcast list of an entry is the projection to
    [{podcastTitle, podcastId}] of exactly the podcasts whose [authorId] is
    that user's [clerkId], in descending order of [views]; [totalPodcasts] is
    their number; and the entries come in descending order of
    [totalPodcasts]. *)
Theorem getTopUserByPodcastCount_spec (s : Store.db) :
  ∃ r : list Users.topPodcaster,
    Users.getTopUserByPodcastCount s = (inr r, s)
    ∧ Users.t_id <$> r ≡ₚ (map_to_list (Store.users s)).*1
    ∧ (∀ e, e ∈ r →
         (∃ u, Store.users s !! Users.t_id e = Some u ∧ Store.clerkId u = Users.t_clerkId e)
         ∧ ∃ ps : list (string * Store.podcast),
             NoDup ps
             ∧ (∀ k p, (k, p) ∈ ps ↔
                       Store.podcasts s !! k = Some p ∧ Store.authorId p = Users.t_clerkId e)
             ∧ StronglySorted (λ a b, Store.views b.2 ≤ Store.views a.2) ps
             ∧ Users.podcast_list e
               = (λ p, Users.PodcastObject (Store.podcastTitle p.2) p.1) <$> ps
             ∧ Users.totalPodcasts e = Z.of_nat (length ps))
    ∧ StronglySorted (λ a b, Users.totalPodcasts b ≤ Users.totalPodcasts a) r.
Proof.
  eexists. split; [apply getTopUserByPodcastCount_run |]. split; [| split].
  - rewrite ranking_perm, <- list_fmap_compose.
    erewrite list_fmap_ext; [reflexivity |]. intros _ [i u] _. reflexivity.
  - intros e He. apply ranking_elem in He as (i & u & Hi & ->). simpl. split.
    + exists u. split; [exact Hi | reflexivity].
    + pose proof (sort_perm Users.by_views
                    (Users.podcasts_of (Store.clerkId u) s)) as Hperm.
      exists (Js.sort Users.by_views (Users.podcasts_of (Store.clerkId u) s)).
      split; [| split; [| split; [| split]]].
      * rewrite Hperm. apply NoDup_filter, NoDup_map_to_list.
      * intros k p. rewrite Hperm. apply by_authorId_elem.
      * apply (sort_sorted (λ p : string * Store.podcast, Store.views p.2)).
      * reflexivity.
      * f_equal. symmetry. apply Permutation_length. exact Hperm.
  - apply (sort_sorted Users.totalPodcasts).
Qed.

Lemma getTopUserByPodcastCount_spec_witness :
  ∃ r : list Users.topPodcaster,
    Users.getTopUserByPodcastCount Samples.library = (inr r, Samples.library)
    ∧ length r = 2%nat
    ∧ StronglySorted (λ a b, Users.totalPodcasts b ≤ Users.totalPodcasts a) r.
Proof.
  destruct (getTopUserByPodcastCount_spec Samples.library) as (r & Hrun & Hids & _ & Hsorted).
  exists r. split; [exact Hrun |]. split; [| exact Hsorted].
  apply Permutation_length in Hids. rewrite !length_fmap in Hids. rewrite Hids. reflexivity.
Defined.

(** The scenario of the specification: Ann, with three podcasts, comes
    before Bob, with one, and her podcasts are listed by descending views. *)
Example ranking_library :
  (Users.getTopUserByPodcastCount Samples.library).1
  = inr [ Users.TopPodcaster "u1" 10 "ann@example.com" "ann.png" "A" "Ann"
            [ Users.PodcastObject "Jazz" "p2"; Users.PodcastObject "Maps" "p3";
              Users.PodcastObject "Tea" "p1" ] 3;
          Users.TopPodcaster "u2" 20 "bob@example.com" "bob.png" "B" "Bob"
            [ Users.PodcastObject "Rust" "p4" ] 1 ].
Proof. vm_compute. reflexivity. Qed.

(** C10.  Each entry of the ranking carries, next to [podcast] and
    [totalPodcasts], every field of the user document it was built from,
    unchanged: the store's [_id] and [_creationTime], [clerkId], [email],
    [imageUrl] and [name]; and every user document is exposed in this way. *)
Theorem getTopUserByPodcastCount_exposes_profile (s : Store.db) :
  ∃ r : list Users.topPodcaster,
    Users.getTopUserByPodcastCount s = (inr r, s)
    ∧ (∀ e, e ∈ r →
         Store.users s !! Users.t_id e
         = Some (Store.User (Users.t_creationTime e) (Users.t_clerkId e)
                            (Users.t_email e) (Users.t_imageUrl e) (Users.t_name e)))
    ∧ (∀ (i : string) (u : Store.user),
         Store.users s !! i = Some u →
         ∃ e, e ∈ r ∧ Users.t_id e = i
              ∧ Users.t_creationTime e = Store.u_creationTime u
              ∧ Users.t_clerkId e = Store.clerkId u
              ∧ Users.t_email e = Store.email u
              ∧ Users.t_imageUrl e = Store.imageUrl u
              ∧ Users.t_name e = Store.name u)
    ∧ Users.entry_user <$> r ≡ₚ map_to_list (Store.users s).
Proof.
  eexists. split; [apply getTopUserByPodcastCount_run |]. split; [| split].
  - intros e He. apply ranking_elem in He as (i & u & Hi & ->). simpl.
    rewrite Hi. destruct u; reflexivity.
  - intros i u Hi. exists (Users.entry_of s (i, u)).
    split; [apply ranking_elem; exists i, u; split; [exact Hi | reflexivity] |].
    repeat split; reflexivity.
  - rewrite ranking_perm, <- list_fmap_compose.
    rewrite <- (list_fmap_id (map_to_list (Store.users s))) at 2.
    erewrite list_fmap_ext; [reflexivity |]. intros _ [i [t c e' im n]] _. reflexivity.
Qed.

Lemma getTopUserByPodcastCount_exposes_profile_witness :
  ∃ r : list Users.topPodcaster,
    Users.getTopUserByPodcastCount Samples.library = (inr r, Samples.library)
    ∧ ∃ e, e ∈ r ∧ Users.t_id e = "u2"%string
           ∧ Users.t_email e = "bob@example.com"%string
           ∧ Users.t_name e = "Bob"%string.
Proof.
  destruct (getTopUserByPodcastCount_exposes_profile Samples.library)
    as (r & Hrun & _ & Hall & _).
  exists r. split; [exact Hrun |].
  destruct (Hall "u2"%string Samples.bob eq_refl) as (e & He & Hid & _ & _ & Hem & _ & Hn).
  exists e. repeat split; assumption.
Defined.

(* ===================================================================== *)
(** * Part III: further properties of the same code                       *)
(* ===================================================================== *)

(** ** User gateway: edge cases and composition *)

Section GatewayMore.
Import Store Users.

Lemma two_elements {X : Type} (l : list X) (x y : X) :
  x ∈ l → y ∈ l → x ≠ y → ∃ a b t, l = a :: b :: t.
Proof.
  intros Hx Hy Hne. destruct l as [| a [| b t]].
  - inversion Hx.
  - apply list_elem_of_singleton in Hx, Hy. congruence.
  - eauto.
Qed.

(** Two documents with the same [clerkId] make the filter return several. *)
Lemma by_clerkId_several (s : db) (cid i j : string) (u v : user) :
  i ≠ j → users s !! i = Some u → users s !! j = Some v →
  clerkId u = cid → clerkId v = cid →
  ∃ a b t, by_clerkId cid (map_to_list (users s)) = a :: b :: t.
Proof.
  intros Hne Hi Hj Hu Hv.
  apply (two_elements _ (i, u) (j, v)).
  - apply by_clerkId_elem. split; assumption.
  - apply by_clerkId_elem. split; assumption.
  - congruence.
Qed.

(** After [updateUser] found its document, that document, updated, is again
    the only one with the id. *)
Lemma by_clerkId_updated (s : db) (cid img em i : string) (u : user) :
  by_clerkId cid (map_to_list (users s)) = [(i, u)] →
  by_clerkId cid (map_to_list (<[i := set_profile img em u]> (users s)))
  = [(i, set_profile img em u)].
Proof.
  intros E.
  assert (Hiu : users s !! i = Some u ∧ clerkId u = cid).
  { apply by_clerkId_elem. rewrite E. left. }
  destruct Hiu as [Hi Hu].
  apply by_clerkId_singleton.
  - apply lookup_insert_eq.
  - exact Hu.
  - intros j v Hj Hv. destruct (decide (j = i)) as [| Hne]; [assumption |].
    rewrite lookup_insert_ne in Hj by congruence.
    assert (Hin : (j, v) ∈ by_clerkId cid (map_to_list (users s)))
      by (apply by_clerkId_elem; split; assumption).
    rewrite E in Hin. apply list_elem_of_singleton in Hin. congruence.
Qed.

Lemma set_profile_idem (img em : string) (u : user) :
  set_profile img em (set_profile img em u) = set_profile img em u.
Proof. reflexivity. Qed.

Lemma cascade_idem (cid img : string) (p : podcast) :
  cascade cid img (cascade cid img p) = cascade cid img p.
Proof.
  unfold cascade. destruct (decide (authorId p = cid)) as [Ha | Ha].
  - simpl. rewrite decide_True by exact Ha. reflexivity.
  - rewrite decide_False by exact Ha. reflexivity.
Qed.

End GatewayMore.

(** X1.  The gateway keeps [clerkId] unique: from a store where it is, any
    sequence of [createUser], [updateUser] and [deleteUser] calls, failing or
    not, leads to a store where it is; so does any sequence from an empty
    [users] table. *)
Theorem gateway_keeps_clerkId_unique :
  (∀ (cs : list Users.call) (s : Store.db),
     Users.unique_clerkIds s → Users.unique_clerkIds (Users.perform_all cs s))
  ∧ (∀ (cs : list Users.call) (ps : gmap string Store.podcast) (t : Z),
       Users.unique_clerkIds (Users.perform_all cs (Store.Db ∅ ps t))).
Proof.
  split.
  - intros cs s. apply perform_all_unique_clerkIds.
  - intros cs ps t. apply perform_all_unique_clerkIds, unique_clerkIds_empty.
Qed.

Lemma gateway_keeps_clerkId_unique_witness :
  Users.unique_clerkIds Samples.library
  ∧ Users.unique_clerkIds
      (Users.perform_all
         [Users.Create "C" "cy@example.com" "cy.png" "Cy";
          Users.Create "A" "other@example.com" "o.png" "Other";
          Users.Update "B" "bob2.png" "bob@new.example";
          Users.Delete "A"]
         Samples.library).
Proof.
  assert (Hu : Users.unique_clerkIds Samples.library) by by_evaluation.
  split; [exact Hu |].
  exact (proj1 gateway_keeps_clerkId_unique _ Samples.library Hu).
Defined.

(** X2.  When two user documents carry the same [clerkId], [getUserById],
    [createUser], [updateUser] and [deleteUser] for that id all fail on
    [unique()], with neither of the handlers' own errors, and none of them
    writes. *)
Theorem duplicates_block_handlers (s : Store.db) (cid i j : string) (u v : Store.user) :
  i ≠ j → Store.users s !! i = Some u → Store.users s !! j = Some v →
  Store.clerkId u = cid → Store.clerkId v = cid →
  Users.getUserById cid s = (inl Store.NotUnique, s)
  ∧ (∀ em img nm, Users.createUser cid em img nm s = (inl Store.NotUnique, s))
  ∧ (∀ img em, Users.updateUser cid img em s = (inl Store.NotUnique, s))
  ∧ Users.deleteUser cid s = (inl Store.NotUnique, s)
  ∧ Store.NotUnique ≠ Users.NotFound ∧ Store.NotUnique ≠ Users.AlreadyExists.
Proof.
  intros Hne Hi Hj Hu Hv.
  destruct (by_clerkId_several s cid i j u v Hne Hi Hj Hu Hv) as (a & b & t & E).
  split; [| split; [| split; [| split; [| split]]]].
  - rewrite getUserById_run, E. reflexivity.
  - intros em img nm. rewrite createUser_run, E. reflexivity.
  - intros img em. rewrite updateUser_run, E. reflexivity.
  - rewrite deleteUser_run, E. reflexivity.
  - discriminate.
  - discriminate.
Qed.

Lemma duplicates_block_handlers_witness :
  Users.getUserById "A" Samples.twins = (inl Store.NotUnique, Samples.twins)
  ∧ Users.deleteUser "A" Samples.twins = (inl Store.NotUnique, Samples.twins).
Proof.
  assert (Hne : "u1"%string ≠ "u9"%string) by discriminate.
  destruct (duplicates_block_handlers Samples.twins "A" "u1" "u9" _ _
              Hne eq_refl eq_refl eq_refl eq_refl) as (Hg & _ & _ & Hd & _).
  split; [exact Hg | exact Hd].
Defined.

(** X3.  On a store that keeps [clerkId] unique, [updateUser] followed by
    [getUserById] with the same id returns the same document, under the same
    [_id], with the new [imageUrl] and [email] and with its [clerkId], [name]
    and [_creationTime] as before. *)
Theorem update_then_getUserById (s : Store.db) (cid img em i : string) (u : Store.user) :
  Users.unique_clerkIds s → Store.users s !! i = Some u → Store.clerkId u = cid →
  ∃ s1 : Store.db,
    Users.updateUser cid img em s = (inr (), s1)
    ∧ Users.getUserById cid s1
      = (inr (i, Store.User (Store.u_creationTime u) cid em img (Store.name u)), s1).
Proof.
  intros Huniq Hi Hu.
  pose proof (by_clerkId_unique s cid i u Huniq Hi Hu) as E.
  eexists. split; [apply (updateUser_found s cid img em i u E) |].
  rewrite getUserById_run. simpl.
  rewrite (by_clerkId_updated s cid img em i u E).
  unfold Users.set_profile. rewrite Hu. reflexivity.
Qed.

Lemma update_then_getUserById_witness :
  Users.unique_clerkIds Samples.library
  ∧ ∃ s1 : Store.db,
      Users.updateUser "B" "bob2.png" "bob@new.example" Samples.library = (inr (), s1)
      ∧ Users.getUserById "B" s1
        = (inr ("u2", Store.User 20 "B" "bob@new.example" "bob2.png" "Bob")%string, s1).
Proof.
  assert (Hu : Users.unique_clerkIds Samples.library) by by_evaluation.
  split; [exact Hu |].
  exact (update_then_getUserById Samples.library "B" "bob2.png" "bob@new.example"
           "u2" Samples.bob Hu eq_refl eq_refl).
Defined.

(** X4.  On a store that keeps [clerkId] unique, after [deleteUser] removed
    the document of an id, no document carries that id: [getUserById] fails
    with [NotFound], a second [deleteUser] fails with [NotFound], and
    [createUser] for the id succeeds again. *)
Theorem delete_then_absent (s : Store.db) (cid i : string) (u : Store.user) :
  Users.unique_clerkIds s → Store.users s !! i = Some u → Store.clerkId u = cid →
  let s1 := (Users.deleteUser cid s).2 in
  (Users.deleteUser cid s).1 = inr ()
  ∧ ¬ Users.known cid s1
  ∧ Users.getUserById cid s1 = (inl Users.NotFound, s1)
  ∧ Users.deleteUser cid s1 = (inl Users.NotFound, s1)
  ∧ ∀ em img nm, (Users.createUser cid em img nm s1).1 = inr ().
Proof.
  intros Huniq Hi Hu s1.
  assert (Hrun : Users.deleteUser cid s
                 = (inr (), Store.Db (delete i (Store.users s)) (Store.podcasts s) (Store.now s))).
  { rewrite deleteUser_run, (by_clerkId_unique s cid i u Huniq Hi Hu).
    unfold Store.delete_user. simpl. rewrite Hi. reflexivity. }
  assert (Hnot : ¬ Users.known cid s1).
  { unfold s1. rewrite Hrun. simpl. intros (j & v & Hj & Hv). simpl in Hj.
    apply lookup_delete_Some in Hj as [Hne Hj].
    apply Hne. symmetry.
    apply (proj1 (unique_clerkIds_lookup s) Huniq j i v u Hj Hi). congruence. }
  pose proof (proj2 (by_clerkId_nil s1 cid) Hnot) as E.
  split; [rewrite Hrun; reflexivity |]. split; [exact Hnot |].
  split; [rewrite getUserById_run, E; reflexivity |].
  split; [rewrite deleteUser_run, E; reflexivity |].
  intros em img nm. rewrite createUser_run, E. reflexivity.
Qed.

Lemma delete_then_absent_witness :
  Users.unique_clerkIds Samples.library
  ∧ Users.getUserById "B" (Users.deleteUser "B" Samples.library).2
    = (inl Users.NotFound, (Users.deleteUser "B" Samples.library).2).
Proof.
  assert (Hu : Users.unique_clerkIds Samples.library) by by_evaluation.
  split; [exact Hu |].
  exact (proj1 (proj2 (proj2
    (delete_then_absent Samples.library "B" "u2" Samples.bob Hu eq_refl eq_refl)))).
Defined.

(** X5.  [createUser] followed by [deleteUser] with the same id, on a store
    that had no document for the id, gives back the store it started from. *)
Theorem create_then_delete (s : Store.db) (cid em img nm : string) :
  ¬ Users.known cid s →
  Users.deleteUser cid (Users.createUser cid em img nm s).2 = (inr (), s).
Proof.
  intros Hnot. rewrite (createUser_new s cid em img nm Hnot). simpl.
  rewrite deleteUser_run. simpl.
  rewrite (by_clerkId_created s cid em img nm Hnot).
  unfold Store.delete_user. simpl. rewrite lookup_insert_eq. simpl.
  rewrite delete_insert_eq, delete_id by apply fresh_user_id.
  destruct s; reflexivity.
Qed.

Lemma create_then_delete_witness :
  ¬ Users.known "C" Samples.library
  ∧ Users.deleteUser "C"
      (Users.createUser "C" "cy@example.com" "cy.png" "Cy" Samples.library).2
    = (inr (), Samples.library).
Proof.
  assert (Hn : ¬ Users.known "C" Samples.library).
  { apply by_clerkId_nil. vm_compute. reflexivity. }
  split; [exact Hn |].
  exact (create_then_delete Samples.library "C" "cy@example.com" "cy.png" "Cy" Hn).
Defined.

(** X6.  [updateUser] is idempotent on every store: a second call with the
    same arguments returns what the first returned and leaves the store the
    first call left. *)
Theorem updateUser_idempotent (s : Store.db) (cid img em : string) :
  Users.updateUser cid img em (Users.updateUser cid img em s).2
  = Users.updateUser cid img em s.
Proof.
  destruct (Users.by_clerkId cid (map_to_list (Store.users s))) as [| [i u] [| y l]] eqn:E.
  - rewrite (updateUser_run s), E. simpl. rewrite updateUser_run, E. reflexivity.
  - rewrite (updateUser_found s cid img em i u E). simpl.
    rewrite (updateUser_found
               (Store.Db (<[i := Users.set_profile img em u]> (Store.users s))
                         (Users.cascade cid img <$> Store.podcasts s) (Store.now s))
               cid img em i (Users.set_profile img em u)
               (by_clerkId_updated s cid img em i u E)).
    simpl. rewrite insert_insert_eq, set_profile_idem, <- map_fmap_compose.
    do 2 f_equal. apply map_fmap_ext. intros k p _. apply cascade_idem.
  - rewrite (updateUser_run s), E. simpl. rewrite updateUser_run, E. reflexivity.
Qed.

(** X7.  [updateUser] is all or nothing, on every store.  Either it fails,
    with [NotFound] or on [unique()], and the store is untouched; or it
    returns, and then no document was added or removed in either table, every
    user document kept its [clerkId] and [name], and every podcast document is
    what it was or what it was with the new [authorImageUrl].  It never fails
    after it has written. *)
Theorem updateUser_all_or_nothing (s : Store.db) (cid img em : string) :
  (∃ e, Users.updateUser cid img em s = (inl e, s)
        ∧ (e = Users.NotFound ∨ e = Store.NotUnique))
  ∨ (∃ s1, Users.updateUser cid img em s = (inr (), s1)
        ∧ dom (Store.users s1) = dom (Store.users s)
        ∧ dom (Store.podcasts s1) = dom (Store.podcasts s)
        ∧ Store.now s1 = Store.now s
        ∧ (∀ k u1, Store.users s1 !! k = Some u1 →
             ∃ u, Store.users s !! k = Some u
                  ∧ Store.clerkId u1 = Store.clerkId u ∧ Store.name u1 = Store.name u
                  ∧ Store.u_creationTime u1 = Store.u_creationTime u)
        ∧ (∀ k p1, Store.podcasts s1 !! k = Some p1 →
             ∃ p, Store.podcasts s !! k = Some p
                  ∧ (p1 = p ∨ p1 = Users.set_authorImageUrl img p))).
Proof.
  destruct (Users.by_clerkId cid (map_to_list (Store.users s))) as [| [i u] [| y l]] eqn:E.
  - left. exists Users.NotFound. rewrite updateUser_run, E. split; [reflexivity | left; reflexivity].
  - right. eexists. split; [apply (updateUser_found s cid img em i u E) |]. simpl.
    assert (Hi : Store.users s !! i = Some u).
    { apply (by_clerkId_elem (Store.users s) cid i u). rewrite E. left. }
    split; [| split; [| split; [| split]]].
    + rewrite dom_insert_L. pose proof (elem_of_dom_2 _ _ _ Hi) as Hdom.
      apply set_eq. intros k. rewrite elem_of_union, elem_of_singleton.
      split; [intros [-> | Hk]; assumption | intros Hk; right; exact Hk].
    + apply dom_fmap_L.
    + reflexivity.
    + intros k u1 Hk. destruct (decide (k = i)) as [-> | Hne].
      * rewrite lookup_insert_eq in Hk. injection Hk as <-.
        exists u. repeat split; [exact Hi].
      * rewrite lookup_insert_ne in Hk by congruence. exists u1. repeat split; exact Hk.
    + intros k p1 Hk. rewrite lookup_fmap in Hk.
      destruct (Store.podcasts s !! k) as [p |]; [| discriminate].
      simpl in Hk. injection Hk as <-. exists p. split; [reflexivity |].
      unfold Users.cascade. case_decide; [right | left]; reflexivity.
  - left. exists Store.NotUnique. rewrite updateUser_run, E. split; [reflexivity | right; reflexivity].
Qed.

(** X8.  Deleting a user removes exactly that user's entry from the ranking
    and changes no other entry; the user's podcasts stay in the store, listed
    under nobody. *)
Theorem delete_then_ranking (s : Store.db) (cid i : string) (u : Store.user) :
  Users.unique_clerkIds s → Store.users s !! i = Some u → Store.clerkId u = cid →
  let s1 := (Users.deleteUser cid s).2 in
  ∃ r r1 : list Users.topPodcaster,
    Users.getTopUserByPodcastCount s = (inr r, s)
    ∧ Users.getTopUserByPodcastCount s1 = (inr r1, s1)
    ∧ (∀ e, e ∈ r1 ↔ e ∈ r ∧ Users.t_id e ≠ i)
    ∧ (∀ e, e ∈ r1 → Users.t_clerkId e ≠ cid)
    ∧ Users.podcasts_of cid s1 = Users.podcasts_of cid s.
Proof.
  intros Huniq Hi Hu s1.
  assert (Hrun : s1 = Store.Db (delete i (Store.users s)) (Store.podcasts s) (Store.now s)).
  { unfold s1. rewrite deleteUser_run, (by_clerkId_unique s cid i u Huniq Hi Hu).
    unfold Store.delete_user. simpl. rewrite Hi. reflexivity. }
  eexists _, _. split; [apply getTopUserByPodcastCount_run |].
  split; [apply getTopUserByPodcastCount_run |].
  assert (Hiff : ∀ e,
    e ∈ Js.sort Users.by_totalPodcasts (Users.entry_of s1 <$> map_to_list (Store.users s1))
    ↔ e ∈ Js.sort Users.by_totalPodcasts (Users.entry_of s <$> map_to_list (Store.users s))
      ∧ Users.t_id e ≠ i).
  { intros e. rewrite !ranking_elem. rewrite Hrun. simpl. split.
    - intros (j & v & Hj & ->). apply lookup_delete_Some in Hj as [Hne Hj].
      split; [exists j, v; split; [exact Hj | reflexivity] | simpl; congruence].
    - intros [(j & v & Hj & ->) Hne]. simpl in Hne. exists j, v.
      split; [apply lookup_delete_Some; split; [congruence | exact Hj] | reflexivity]. }
  split; [exact Hiff |]. split.
  - intros e He. apply Hiff in He as [He Hne].
    apply ranking_elem in He as (j & v & Hj & ->). simpl in *.
    intros Hv. apply Hne.
    apply (proj1 (unique_clerkIds_lookup s) Huniq j i v u Hj Hi). congruence.
  - rewrite Hrun. reflexivity.
Qed.

Lemma delete_then_ranking_witness :
  Users.unique_clerkIds Samples.library
  ∧ ∃ r1 : list Users.topPodcaster,
      Users.getTopUserByPodcastCount (Users.deleteUser "A" Samples.library).2
      = (inr r1, (Users.deleteUser "A" Samples.library).2)
      ∧ (∀ e, e ∈ r1 → Users.t_clerkId e ≠ "A"%string)
      ∧ length (Users.podcasts_of "A" (Users.deleteUser "A" Samples.library).2) = 3%nat.
Proof.
  assert (Hu : Users.unique_clerkIds Samples.library) by by_evaluation.
  split; [exact Hu |].
  destruct (delete_then_ranking Samples.library "A" "u1" Samples.ann Hu eq_refl eq_refl)
    as (r & r1 & _ & Hr1 & _ & Hno & Hpods).
  exists r1. split; [exact Hr1 |]. split; [exact Hno |].
  rewrite Hpods. reflexivity.
Defined.

(** X9.  A user created for an id is ranked at once with every podcast
    already stored under that [authorId]: the entry of the new user counts
    and lists the podcasts that were there before the user document was. *)
Theorem create_then_ranking (s : Store.db) (cid em img nm : string) :
  ¬ Users.known cid s →
  let s1 := (Users.createUser cid em img nm s).2 in
  ∃ (r1 : list Users.topPodcaster) (e : Users.topPodcaster),
    Users.getTopUserByPodcastCount s1 = (inr r1, s1)
    ∧ e ∈ r1
    ∧ Users.t_clerkId e = cid ∧ Users.t_email e = em
    ∧ Users.t_imageUrl e = img ∧ Users.t_name e = nm
    ∧ Users.totalPodcasts e = Z.of_nat (length (Users.podcasts_of cid s))
    ∧ Users.podcast_list e
      = Users.podcastObject_of <$> Js.sort Users.by_views (Users.podcasts_of cid s).
Proof.
  intros Hnot s1.
  assert (Hrun : s1 = Store.Db
            (<[fresh (dom (Store.users s)) := Store.User (Store.now s) cid em img nm]>
               (Store.users s))
            (Store.podcasts s) (Store.now s)).
  { unfold s1. rewrite (createUser_new s cid em img nm Hnot). reflexivity. }
  eexists _, (Users.entry_of s1 (fresh (dom (Store.users s)), Store.User (Store.now s) cid em img nm)).
  split; [apply getTopUserByPodcastCount_run |]. split.
  - apply ranking_elem. eexists _, _. split; [| reflexivity].
    rewrite Hrun. simpl. apply lookup_insert_eq.
  - rewrite Hrun. repeat split.
Qed.

Lemma create_then_ranking_witness :
  let orphans := (Users.deleteUser "A" Samples.library).2 in
  ¬ Users.known "A" orphans
  ∧ ∃ (r1 : list Users.topPodcaster) (e : Users.topPodcaster),
      (Users.getTopUserByPodcastCount
         (Users.createUser "A" "al@example.com" "al.png" "Al" orphans).2).1 = inr r1
      ∧ e ∈ r1 ∧ Users.t_name e = "Al"%string ∧ Users.totalPodcasts e = 3.
Proof.
  intros orphans.
  assert (Hn : ¬ Users.known "A" orphans).
  { apply by_clerkId_nil. vm_compute. reflexivity. }
  split; [exact Hn |].
  destruct (create_then_ranking orphans "A" "al@example.com" "al.png" "Al" Hn)
    as (r1 & e & Hrun & He & _ & _ & _ & Hname & Htot & _).
  exists r1, e. rewrite Hrun. repeat split; assumption.
Defined.

(** ** Ranking: ties and totals *)

Section RankingMore.
Import Store Users.

(** The sort is stable: among elements with one key it keeps the order. *)
Lemma insert_filter {A : Type} (key : A → Z) (k : Z) (x : A) (l : list A) :
  filter (λ a, key a = k) (Js.insert (λ a b, key b - key a) x l)
  = filter (λ a, key a = k) (x :: l).
Proof.
  induction l as [| y l IH]; [reflexivity |]. simpl.
  destruct (key y - key x <=? 0) eqn:Hc; [reflexivity |].
  apply Z.leb_gt in Hc.
  rewrite (filter_cons _ y), IH, !(filter_cons _ x), !(filter_cons _ y).
  destruct (decide (key x = k)), (decide (key y = k)); try reflexivity. lia.
Qed.

Lemma sort_filter {A : Type} (key : A → Z) (k : Z) (l : list A) :
  filter (λ a, key a = k) (Js.sort (λ a b, key b - key a) l)
  = filter (λ a, key a = k) l.
Proof.
  induction l as [| x l IH]; [reflexivity |]. simpl.
  rewrite insert_filter, !(filter_cons _ x), IH. reflexivity.
Qed.

Lemma total_listed_perm (r r' : list topPodcaster) :
  r ≡ₚ r' → total_listed r = total_listed r'.
Proof.
  induction 1 as [| e r r' _ IH | e e' r | r r' r'' _ IH1 _ IH2]; simpl.
  - reflexivity.
  - rewrite IH. reflexivity.
  - lia.
  - congruence.
Qed.

Lemma total_listed_entries (s : db) (l : list (string * user)) :
  total_listed (entry_of s <$> l)
  = Z.of_nat (sum_list_with (λ d, length (podcasts_of (clerkId d.2) s)) l).
Proof.
  induction l as [| d l IH]; [reflexivity |].
  rewrite fmap_cons. simpl. rewrite IH. lia.
Qed.

(** Among users with distinct ids at most one is the author of a podcast. *)
Lemma authors_at_most_one (aid : string) (l : list (string * user)) :
  NoDup ((λ d, clerkId d.2) <$> l) →
  (sum_list_with (λ d, if decide (aid = clerkId d.2) then 1 else 0) l <= 1)%nat.
Proof.
  induction l as [| d l IH]; intros Hnd; simpl; [lia |].
  rewrite fmap_cons in Hnd. apply NoDup_cons in Hnd as [Hd Hnd].
  specialize (IH Hnd). destruct (decide (aid = clerkId d.2)) as [-> | _]; [| lia].
  assert (Hz : sum_list_with
                 (λ d' : string * user, if decide (clerkId d.2 = clerkId d'.2) then 1%nat else 0%nat) l
               = 0%nat).
  { clear IH Hnd. induction l as [| d' l IHl]; [reflexivity |]. simpl.
    rewrite fmap_cons in Hd. apply not_elem_of_cons in Hd as [Hne Hd].
    rewrite decide_False by exact Hne. apply IHl, Hd. }
  lia.
Qed.

Lemma podcasts_counted_once (l : list (string * user)) (ps : list (string * podcast)) :
  NoDup ((λ d, clerkId d.2) <$> l) →
  (sum_list_with (λ d, length (by_authorId (clerkId d.2) ps)) l <= length ps)%nat.
Proof.
  intros Hnd. induction ps as [| p ps IH].
  - assert (Hz : ∀ l' : list (string * user),
              sum_list_with (λ d, length (by_authorId (clerkId d.2) [])) l' = 0%nat).
    { induction l' as [| d l' IHl]; [reflexivity | simpl; exact IHl]. }
    rewrite Hz. simpl. lia.
  - pose proof (authors_at_most_one (authorId p.2) l Hnd) as Hone.
    assert (Hsplit : ∀ l' : list (string * user),
      sum_list_with (λ d, length (by_authorId (clerkId d.2) (p :: ps))) l'
      = (sum_list_with (λ d, if decide (authorId p.2 = clerkId d.2) then 1 else 0) l'
         + sum_list_with (λ d, length (by_authorId (clerkId d.2) ps)) l')%nat).
    { induction l' as [| d l' IHl]; [reflexivity |]. simpl. rewrite IHl.
      unfold by_authorId at 1. rewrite filter_cons. fold (by_authorId (clerkId d.2) ps).
      destruct (decide (authorId p.2 = clerkId d.2)); simpl; lia. }
    rewrite Hsplit. simpl. lia.
Qed.

End RankingMore.

(** X10.  Ties in the ranking keep the order of the reads.  The ranking is
    a function of the two lists that the reads of the users and of the
    podcasts returned, and whatever the order of these lists: the entries
    with a given [totalPodcasts] come in the order in which their users were
    read, and in an entry the podcasts with a given [views] come in the order
    in which they were read. *)
Theorem ranking_ties_keep_read_order :
  (∀ (s : Store.db) us all,
     Store.query_users s = (inr us, s) → Store.query_podcasts s = (inr all, s) →
     Users.getTopUserByPodcastCount s = (inr (Users.ranking_among us all), s))
  ∧ (∀ (us : list (string * Store.user)) (all : list (string * Store.podcast)),
       (∀ n : Z,
          filter (λ e, Users.totalPodcasts e = n) (Users.ranking_among us all)
          = filter (λ e, Users.totalPodcasts e = n) (Users.entry_among all <$> us))
       ∧ (∀ e, e ∈ Users.ranking_among us all →
            ∃ ps : list (string * Store.podcast),
              Users.podcast_list e = Users.podcastObject_of <$> ps
              ∧ ∀ n : Z,
                  filter (λ p, Store.views p.2 = n) ps
                  = filter (λ p, Store.views p.2 = n)
                           (Users.by_authorId (Users.t_clerkId e) all))).
Proof.
  split.
  - intros s us all [= <-] [= <-]. exact (getTopUserByPodcastCount_run s).
  - intros us all. split.
    + intros n. apply (sort_filter Users.totalPodcasts).
    + intros e He. unfold Users.ranking_among in He.
      rewrite sort_perm in He. apply list_elem_of_fmap in He as (u & -> & _). simpl.
      eexists. split; [reflexivity |].
      intros n. apply (sort_filter (λ p : string * Store.podcast, Store.views p.2)).
Qed.

Lemma ranking_ties_keep_read_order_witness :
  ∃ us all,
    Store.query_users Samples.library = (inr us, Samples.library)
    ∧ Store.query_podcasts Samples.library = (inr all, Samples.library)
    ∧ Users.getTopUserByPodcastCount Samples.library
      = (inr (Users.ranking_among us all), Samples.library)
    ∧ length (Users.ranking_among us all) = 2%nat.
Proof.
  eexists _, _.
  split; [reflexivity |]. split; [reflexivity |].
  split; [apply (proj1 ranking_ties_keep_read_order); reflexivity | vm_compute; reflexivity].
Defined.

(** X11.  On a store that keeps [clerkId] unique the ranking counts no
    podcast twice: the [totalPodcasts] of all entries add up to at most the
    number of podcast documents. *)
Theorem ranking_counts_each_podcast_once (s : Store.db) :
  Users.unique_clerkIds s →
  ∃ r : list Users.topPodcaster,
    Users.getTopUserByPodcastCount s = (inr r, s)
    ∧ 0 ≤ Users.total_listed r ≤ Z.of_nat (size (Store.podcasts s)).
Proof.
  intros Huniq. eexists. split; [apply getTopUserByPodcastCount_run |].
  rewrite (total_listed_perm _ _ (ranking_perm s)), total_listed_entries.
  pose proof (podcasts_counted_once (map_to_list (Store.users s))
                (map_to_list (Store.podcasts s)) Huniq) as Hle.
  rewrite length_map_to_list in Hle. unfold Users.podcasts_of. lia.
Qed.

Lemma ranking_counts_each_podcast_once_witness :
  Users.unique_clerkIds Samples.library
  ∧ ∃ r : list Users.topPodcaster,
      Users.getTopUserByPodcastCount Samples.library = (inr r, Samples.library)
      ∧ 0 ≤ Users.total_listed r ≤ 4.
Proof.
  assert (Hu : Users.unique_clerkIds Samples.library) by by_evaluation.
  split; [exact Hu |].
  exact (ranking_counts_each_podcast_once Samples.library Hu).
Defined.

(** ** Debounce: settling, teardown, provenance *)

Section DebounceMore.
Import Debounce.
Context {T : Type} `{EqDecision T}.
Implicit Types (h : hook T) (tr : list (event T)) (v : T) (d ms : nat).

Lemma caught_up_mount v d : caught_up (v, d, 0%nat) (mount v d).
Proof.
  split; [discriminate |]. intros w due _. right. reflexivity.
Qed.

Lemma caught_up_step st h (e : event T) :
  in_step st h → caught_up st h → caught_up (input_step st e) (step h e).
Proof.
  intros (Hv & Hd & Hto) [Hnone Hsome]. destruct e as [v d | ms]; simpl.
  - unfold render. rewrite Hv, Hd.
    destruct (decide (v = st.1.1 ∧ d = st.1.2)); [split; assumption |].
    split; [discriminate |]. intros w due _. right. reflexivity.
  - unfold elapse. destruct (timeout h) as [[w due] |] eqn:Hpend.
    + destruct (Hto w due eq_refl) as [-> _].
      destruct (due <=? ms)%nat eqn:Hle.
      * split; [intros _; simpl; congruence | discriminate].
      * apply Nat.leb_gt in Hle. split; [discriminate |].
        simpl. intros w' due' [= <- <-]. left. lia.
    + split; [intros _; apply Hnone; reflexivity |].
      rewrite Hpend. discriminate.
Qed.

Lemma in_step_caught_up_run tr : ∀ st h,
  in_step st h → caught_up st h →
  in_step (fold_left input_step tr st) (run h tr)
  ∧ caught_up (fold_left input_step tr st) (run h tr).
Proof.
  induction tr as [| e tr IH]; intros st h Hin Hcu; [split; assumption |].
  simpl. apply IH; [apply in_step_step, Hin | apply caught_up_step; assumption].
Qed.

(** The output and the value of a pending timer come from a given stock of
    values enlarged by the inputs of the trace. *)
Lemma provenance tr : ∀ h (stock : list T),
  debouncedValue h ∈ stock →
  (∀ w due, timeout h = Some (w, due) → w ∈ stock) →
  debouncedValue (run h tr) ∈ stock ++ inputs tr.
Proof.
  induction tr as [| e tr IH]; intros h stock Hout Hpend.
  - simpl. rewrite app_nil_r. exact Hout.
  - change (run h (e :: tr)) with (run (step h e) tr).
    destruct e as [v d | ms].
    + change (inputs (Render v d :: tr)) with (v :: inputs tr).
      rewrite (cons_middle v stock (inputs tr)), app_assoc.
      apply IH; simpl; unfold render; case_decide; simpl.
      * apply elem_of_app. left. exact Hout.
      * apply elem_of_app. left. exact Hout.
      * intros w due Hw. apply elem_of_app. left. eapply Hpend, Hw.
      * intros w due [= <- _]. apply elem_of_app. right. left.
    + change (inputs (Elapse ms :: tr)) with (inputs tr).
      apply IH; simpl; unfold elapse; destruct (timeout h) as [[w due] |] eqn:E;
        try destruct (due <=? ms)%nat; simpl; try assumption.
      * eapply Hpend. reflexivity.
      * discriminate.
      * intros w' due' [= <- _]. eapply Hpend. reflexivity.
      * rewrite E. discriminate.
Qed.

End DebounceMore.

(** X12.  The debounced value catches up: from mount on, whenever the input
    has stayed unchanged for at least its delay (and some time has passed
    since it last changed), the output equals the input and no timer is
    pending. *)
Theorem debounce_settles {T : Type} `{EqDecision T}
    (v0 : T) (d0 : nat) (tr : list (Debounce.event T)) :
  let h := Debounce.run (Debounce.mount v0 d0) tr in
  let st := Debounce.input_after v0 d0 tr in
  (st.1.2 <= st.2)%nat → (0 < st.2)%nat →
  Debounce.useDebounce h = st.1.1 ∧ Debounce.timeout h = None.
Proof.
  intros h st Hdelay Hpos.
  destruct (in_step_caught_up_run tr (v0, d0, 0%nat) (Debounce.mount v0 d0)
              (in_step_mount v0 d0) (caught_up_mount v0 d0))
    as [(Hv & Hd & Hto) [Hnone Hsome]].
  fold h in Hv, Hd, Hto, Hnone, Hsome.
  change (fold_left Debounce.input_step tr (v0, d0, 0%nat)) with st in *.
  destruct (Debounce.timeout h) as [[w due] |] eqn:E.
  - exfalso. destruct (Hto w due eq_refl) as [_ Hdue].
    destruct (Hsome w due eq_refl); lia.
  - split; [| reflexivity]. unfold Debounce.useDebounce. rewrite Hnone by reflexivity. exact Hv.
Qed.

Lemma debounce_settles_witness :
  let tr := [Debounce.Render "ru" 500%nat; Debounce.Elapse 100%nat;
             Debounce.Render "rus" 500%nat; Debounce.Elapse 300%nat;
             Debounce.Elapse 200%nat]%string in
  ((Debounce.input_after "r"%string 500%nat tr).1.2
     <= (Debounce.input_after "r"%string 500%nat tr).2)%nat
  ∧ (0 < (Debounce.input_after "r"%string 500%nat tr).2)%nat
  ∧ Debounce.useDebounce (Debounce.run (Debounce.mount "r"%string 500%nat) tr) = "rus"%string.
Proof.
  intros tr.
  assert (H1 : ((Debounce.input_after "r"%string 500%nat tr).1.2
                <= (Debounce.input_after "r"%string 500%nat tr).2)%nat) by (vm_compute; lia).
  assert (H2 : (0 < (Debounce.input_after "r"%string 500%nat tr).2)%nat) by (vm_compute; lia).
  split; [exact H1 |]. split; [exact H2 |].
  exact (proj1 (debounce_settles "r"%string 500%nat tr H1 H2)).
Defined.

(** X13.  Teardown cancels the pending update: after [unmount] no passing of
    time changes the output, although the timer that was pending would have
    replaced it once due. *)
Theorem unmount_cancels_pending {T : Type} `{EqDecision T}
    (h : Debounce.hook T) (w : T) (due : nat) (ts : list nat) :
  Debounce.timeout h = Some (w, due) → (due <= sum_list ts)%nat → ts ≠ [] →
  Debounce.useDebounce (Debounce.run h (map Debounce.Elapse ts)) = w
  ∧ Debounce.run (Debounce.unmount h) (map Debounce.Elapse ts) = Debounce.unmount h
  ∧ Debounce.useDebounce (Debounce.run (Debounce.unmount h) (map Debounce.Elapse ts))
    = Debounce.useDebounce h
  ∧ Forall (λ o, o = Debounce.useDebounce h)
           (Debounce.outputs (Debounce.unmount h) (map Debounce.Elapse ts)).
Proof.
  intros Hto Hdue Hts.
  destruct (elapse_pending ts h w due Hto) as (_ & Hfire & _).
  destruct (elapse_idle ts (Debounce.unmount h) eq_refl) as [Hrun Hout].
  split; [apply Hfire; assumption |]. split; [exact Hrun |].
  split; [rewrite Hrun; reflexivity | exact Hout].
Qed.

Lemma unmount_cancels_pending_witness :
  let h := Debounce.render "ru"%string 500%nat (Debounce.mount "r"%string 500%nat) in
  Debounce.timeout h = Some ("ru"%string, 500%nat)
  ∧ (500 <= sum_list [200%nat; 400%nat])%nat
  ∧ Debounce.useDebounce (Debounce.run h (map Debounce.Elapse [200%nat; 400%nat])) = "ru"%string
  ∧ Debounce.useDebounce
      (Debounce.run (Debounce.unmount h) (map Debounce.Elapse [200%nat; 400%nat])) = "r"%string.
Proof.
  intros h.
  assert (H1 : Debounce.timeout h = Some ("ru"%string, 500%nat)) by reflexivity.
  assert (H2 : (500 <= sum_list [200%nat; 400%nat])%nat) by (simpl; lia).
  assert (H3 : [200%nat; 400%nat] ≠ []) by discriminate.
  destruct (unmount_cancels_pending h "ru"%string 500%nat [200%nat; 400%nat] H1 H2 H3)
    as (Hfire & _ & Hkept & _).
  split; [exact H1 |]. split; [exact H2 |]. split; [exact Hfire | exact Hkept].
Defined.

(** X14.  The hook never shows a value it was not given: from mount on, the
    output is the value it was mounted with or one of the values it was
    rendered with since. *)
Theorem debounce_output_is_an_input {T : Type} `{EqDecision T}
    (v0 : T) (d0 : nat) (tr : list (Debounce.event T)) :
  Debounce.useDebounce (Debounce.run (Debounce.mount v0 d0) tr)
  ∈ v0 :: Debounce.inputs tr.
Proof.
  apply (provenance tr (Debounce.mount v0 d0) [v0]).
  - left.
  - intros w due [= <- _]. left.
Qed.

(** ** Playback-state container: the converse *)

Section AudioMore.
Import Audio.

Lemma selects_app (q1 q2 : list event) : selects (q1 ++ q2) = selects q1 || selects q2.
Proof. unfold selects. apply existsb_app. Qed.

Lemma pathname_setAudio (a : option AudioProps) (p : provider) :
  pathname (setAudio a p) = pathname p.
Proof. reflexivity. Qed.

Lemma arrives_app (q1 q2 : list event) : ∀ p : provider,
  arrives (pathname p) (q1 ++ q2)
  = arrives (pathname p) q1 || arrives (pathname (run p q1)) q2.
Proof.
  induction q1 as [| e q1 IH]; intros p; [reflexivity |].
  destruct e as [a | path]; simpl.
  - change (run p (SetAudio a :: q1)) with (run (setAudio a p) q1).
    apply (IH (setAudio a p)).
  - change (run p (Navigate path :: q1)) with (run (navigate path p) q1).
    pose proof (IH (navigate path p)) as Hnav.
    rewrite pathname_navigate in Hnav. rewrite Hnav, orb_assoc. reflexivity.
Qed.

(** A render keeps a selection only if it is no arrival on the authoring
    route. *)
Lemma navigate_keeps (path : string) (p : provider) (a : AudioProps) :
  audio (navigate path p) = Some a →
  audio p = Some a
  ∧ bool_decide (path ≠ pathname p) && bool_decide (path = authoring_route) = false.
Proof.
  unfold navigate, route_effect. simpl.
  destruct (decide (path = pathname p)) as [Heq | Hne].
  - intros Ha. split; [exact Ha |].
    rewrite bool_decide_eq_false_2 by (intros H; apply H, Heq). reflexivity.
  - destruct (decide (path = authoring_route)) as [Hau | Hau]; simpl; [discriminate |].
    intros Ha. split; [exact Ha |].
    rewrite (bool_decide_eq_false_2 (path = authoring_route)) by exact Hau.
    apply andb_false_r.
Qed.

End AudioMore.

(** X15.  Whatever the provider holds was selected, and last: if, starting
    with nothing selected, the provider holds [a] after a sequence of calls
    and renders, then the sequence contains a call [setAudio a] after which
    there was no other call and no arrival on the authoring route. *)
Theorem playing_means_selected_last (p : Audio.provider) (tr : list Audio.event)
    (a : Audio.AudioProps) :
  Audio.audio p = None →
  Audio.audio (Audio.run p tr) = Some a →
  ∃ tr1 quiet : list Audio.event,
    tr = tr1 ++ Audio.SetAudio (Some a) :: quiet
    ∧ Audio.selects quiet = false
    ∧ Audio.arrives (Audio.pathname (Audio.run p tr1)) quiet = false.
Proof.
  intros Hnone. induction tr as [| e tr IH] using rev_ind; intros Ha.
  - simpl in Ha. congruence.
  - rewrite run_app in Ha. destruct e as [x | path].
    + simpl in Ha. subst x. exists tr, []. repeat split.
    + change (Audio.run (Audio.run p tr) [Audio.Navigate path])
        with (Audio.navigate path (Audio.run p tr)) in Ha.
      apply navigate_keeps in Ha as [Ha Hno].
      destruct (IH Ha) as (tr1 & quiet & -> & Hsel & Harr).
      exists tr1, (quiet ++ [Audio.Navigate path]). split; [| split].
      * rewrite <- app_assoc. reflexivity.
      * rewrite selects_app, Hsel. reflexivity.
      * pose proof (arrives_app quiet [Audio.Navigate path]
                      (Audio.setAudio (Some a) (Audio.run p tr1))) as Happ.
        simpl Audio.pathname in Happ at 1 2. rewrite Happ, Harr. simpl.
        rewrite orb_false_r.
        change (Audio.run (Audio.setAudio (Some a) (Audio.run p tr1)) quiet)
          with (Audio.run (Audio.run p tr1) (Audio.SetAudio (Some a) :: quiet)).
        rewrite <- run_app. exact Hno.
Qed.

Lemma playing_means_selected_last_witness :
  let tr := [Audio.Navigate "/create-podcast"; Audio.SetAudio (Some Samples.episode);
             Audio.Navigate "/create-podcast"; Audio.Navigate "/"]%string in
  Audio.audio (Audio.mount "/") = None
  ∧ Audio.audio (Audio.run (Audio.mount "/") tr) = Some Samples.episode
  ∧ ∃ tr1 quiet : list Audio.event,
      tr = tr1 ++ Audio.SetAudio (Some Samples.episode) :: quiet
      ∧ Audio.selects quiet = false.
Proof.
  intros tr.
  assert (H1 : Audio.audio (Audio.mount "/") = None) by reflexivity.
  assert (H2 : Audio.audio (Audio.run (Audio.mount "/") tr) = Some Samples.episode)
    by reflexivity.
  split; [exact H1 |]. split; [exact H2 |].
  destruct (playing_means_selected_last (Audio.mount "/") tr Samples.episode H1 H2)
    as (tr1 & quiet & Htr & Hsel & _).
  exists tr1, quiet. split; assumption.
Defined.

(** ** Time formatter: what the string tells, and negative durations *)

Section FormatTimeMore.

Lemma to_int_proper (n : Z) :
  Z.to_int n ≠ Decimal.Pos Decimal.Nil ∧ Z.to_int n ≠ Decimal.Neg Decimal.Nil.
Proof.
  destruct n as [| p | p]; simpl; split; try discriminate;
    intros [= Hp]; exact (DecimalPos.Unsigned.to_uint_nonnil p Hp).
Qed.

Lemma digits_inj (n n' : Z) : Js.digits n = Js.digits n' → n = n'.
Proof.
  unfold Js.digits. intros E.
  apply DecimalZ.to_int_inj.
  destruct (to_int_proper n) as [H1 H2], (to_int_proper n') as [H1' H2'].
  pose proof (NilZero.isi _ H1 H2) as P. pose proof (NilZero.isi _ H1' H2') as P'.
  rewrite E in P. congruence.
Qed.

Lemma uint_no_colon (d : Decimal.uint) :
  ¬ In ":"%char (list_ascii_of_string (NilEmpty.string_of_uint d)).
Proof.
  induction d; simpl; [intros [] | intros [E | Hin]; [discriminate | auto] ..].
Qed.

Lemma digits_no_colon (n : Z) : 0 ≤ n → ¬ In ":"%char (list_ascii_of_string (Js.digits n)).
Proof.
  intros Hn. unfold Js.digits.
  destruct n as [| p | p]; [| | lia].
  - simpl. intros [E | []]. discriminate.
  - simpl. unfold NilZero.string_of_uint.
    destruct (Pos.to_uint p) eqn:E; try (rewrite <- E; apply uint_no_colon).
    simpl. intros [E' | []]. discriminate.
Qed.

Lemma split_at_colon (a a' b b' : string) :
  ¬ In ":"%char (list_ascii_of_string a) → ¬ In ":"%char (list_ascii_of_string a') →
  (a ++ ":" ++ b = a' ++ ":" ++ b')%string → a = a' ∧ b = b'.
Proof.
  revert a'. induction a as [| c a IH]; intros [| c' a'] Ha Ha' E;
    cbn [list_ascii_of_string In] in Ha, Ha';
    cbv [String.append] in E; fold String.append in E.
  - split; congruence.
  - exfalso. apply Ha'. left. congruence.
  - exfalso. apply Ha. left. congruence.
  - injection E as Hc E. subst c'.
    destruct (IH a') as [Ha1 Hb]; [tauto | tauto | exact E |]. split; congruence.
Qed.

Lemma pad_inj (r r' : Z) :
  0 ≤ r < 60 → 0 ≤ r' < 60 →
  (if r <? 10 then ("0" ++ Js.digits r)%string else Js.digits r)
  = (if r' <? 10 then ("0" ++ Js.digits r')%string else Js.digits r') →
  r = r'.
Proof.
  intros Hr Hr'.
  destruct (r <? 10) eqn:C, (r' <? 10) eqn:C'; intros E.
  - injection E as E. apply digits_inj, E.
  - exfalso. apply Z.ltb_ge in C'.
    assert (Hn : r' = Z.of_nat (Z.to_nat r')) by lia.
    assert (Hlt : (10 <= Z.to_nat r' < 60)%nat) by lia.
    rewrite Hn in E. generalize dependent (Z.to_nat r'). clear. intros n E Hn.
    do 10 (destruct n as [| n]; [lia |]).
    do 50 (destruct n as [| n]; [vm_compute in E; discriminate |]). lia.
  - exfalso. apply Z.ltb_ge in C.
    assert (Hn : r = Z.of_nat (Z.to_nat r)) by lia.
    assert (Hlt : (10 <= Z.to_nat r < 60)%nat) by lia.
    rewrite Hn in E. generalize dependent (Z.to_nat r). clear. intros n E Hn.
    do 10 (destruct n as [| n]; [lia |]).
    do 50 (destruct n as [| n]; [vm_compute in E; discriminate |]). lia.
  - apply digits_inj, E.
Qed.

(** The quotient of a negative double by 60 is not zero unless the double
    is one of the thirty negative doubles closest to zero. *)
Lemma quotient_positive (a : Z) : 30 < a → 0 < Js.round_ratio a 60.
Proof.
  intros Ha. unfold Js.round_ratio.
  set (e := Z.max (Z.log2 (a / 60) - 52) 0).
  assert (He : 0 ≤ e) by (unfold e; lia).
  assert (HP : 0 < 2 ^ e) by (apply Z.pow_pos_nonneg; lia).
  apply Z.mul_pos_pos; [| exact HP].
  destruct (Z.eq_dec e 0) as [E0 | E0].
  - rewrite E0. change (2 ^ 0) with 1. rewrite Z.mul_1_r.
    assert (0 < Js.round_half_even a 60) by (apply round_half_even_gt; lia). lia.
  - assert (E : e = Z.log2 (a / 60) - 52) by (unfold e in *; lia).
    assert (Hq : 0 < a / 60).
    { destruct (Z.eq_dec (a / 60) 0) as [Hz | Hnz]; [rewrite Hz in E; simpl in E; lia |].
      pose proof (Z.div_pos a 60 ltac:(lia) ltac:(lia)). lia. }
    pose proof (Z.log2_spec (a / 60) Hq) as [Hlow _].
    assert (Hle : 2 ^ e ≤ 2 ^ Z.log2 (a / 60)) by (apply Z.pow_le_mono_r; lia).
    pose proof (Z.div_mod a 60 ltac:(lia)). pose proof (Z.mod_pos_bound a 60 ltac:(lia)).
    assert (1 ≤ Js.round_half_even a (60 * 2 ^ e)) by (apply round_half_even_ge; nia).
    lia.
Qed.

Lemma is_double_opp (t : Z) : Js.is_double t → Js.is_double (- t).
Proof.
  intros (S & f & Hf & HS & ->). exists (- S), f.
  split; [exact Hf |]. split; [rewrite Z.abs_opp; exact HS | lia].
Qed.

(** Whole minutes, rounded down, of a negative double. *)
Lemma quotient_floor_neg (t : Z) :
  Js.is_double t → t < -30 → - (FormatTime.limit * Js.unit) < t →
  Js.floor (Js.div (Js.Num t) 60) = Js.Int (t / Js.unit / 60).
Proof.
  intros Hd Hneg Hlim. pose proof unit_pos as HU.
  destruct (is_double_opp t Hd) as (S & f & Hf & HS & Ha).
  set (a := - t) in *.
  assert (HS0 : 0 ≤ S < 2 ^ 53).
  { assert (0 < 2 ^ f) by (apply Z.pow_pos_nonneg; lia). nia. }
  rewrite Z.div_div by lia.
  set (w := t / (Js.unit * 60)).
  assert (Hw : 60 * w * Js.unit ≤ t < 60 * (w + 1) * Js.unit).
  { pose proof (Z.div_mod t (Js.unit * 60) ltac:(lia)) as Hdm.
    pose proof (Z.mod_pos_bound t (Js.unit * 60) ltac:(lia)) as Hr.
    fold w in Hdm. lia. }
  assert (Hw0 : w < 0) by (apply Z.div_lt_upper_bound; lia).
  assert (Hwlow : - 2 ^ 50 ≤ w) by (unfold FormatTime.limit in Hlim; nia).
  assert (Hlim' : a < FormatTime.limit * Js.unit) by lia.
  destruct (quotient_side S f a (- w) Hf HS0 Ha Hlim' ltac:(lia)) as (_ & _ & _ & Hup).
  specialize (Hup ltac:(lia)).
  assert (Hlow : (- w - 1) * Js.unit < Js.round_ratio a 60).
  { destruct (Z.eq_dec w (-1)) as [-> | Hne].
    - simpl. apply quotient_positive. lia.
    - destruct (quotient_side S f a (- w - 1) Hf HS0 Ha Hlim' ltac:(lia)) as (_ & Hgt & _).
      apply Hgt. lia. }
  unfold Js.div, Js.round_number.
  destruct (0 <=? t) eqn:C0; [apply Z.leb_le in C0; lia |].
  fold a.
  assert (Hhuge : Js.round_ratio a 60 < Js.huge).
  { eapply Z.le_lt_trans; [exact Hup |].
    change Js.huge with (2 ^ 1024 * Js.unit).
    apply Z.mul_lt_mono_pos_r; [lia |].
    assert (2 ^ 50 < 2 ^ 1024) by (apply Z.pow_lt_mono_r; lia). lia. }
  destruct (Js.round_ratio a 60 <? Js.huge) eqn:Ch; [| apply Z.ltb_ge in Ch; lia].
  simpl. f_equal. symmetry.
  apply (Z.div_unique_pos _ _ w (- Js.round_ratio a 60 - w * Js.unit)); lia.
Qed.

Lemma remainder_floor_neg (t : Z) :
  t ≤ 0 →
  Js.floor (Js.rem (Js.Num t) 60) = Js.Int (t / Js.unit + 60 * ((- t) / Js.unit / 60)).
Proof.
  intros Ht. pose proof unit_pos as HU. simpl. f_equal.
  replace t with (- (- t)) at 1 by lia.
  rewrite Z.rem_opp_l by lia. rewrite Z.rem_mod_nonneg by lia.
  rewrite Z.div_div by lia.
  pose proof (Z.div_mod (- t) (Js.unit * 60) ltac:(lia)) as Hdm.
  rewrite (Z.mul_comm 60 Js.unit).
  replace (- ((- t) mod (Js.unit * 60)))
    with (t + 60 * ((- t) / (Js.unit * 60)) * Js.unit) by lia.
  rewrite Z.div_add by lia. lia.
Qed.

End FormatTimeMore.

(** X16.  For non-negative durations below 60 * 2^50 + 56 seconds the
    formatted time tells the whole seconds and nothing else: two durations
    are formatted alike exactly when they have the same number of whole
    seconds. *)
Theorem formatTime_whole_seconds (t t' : Z) :
  Js.is_double t → Js.is_double t' →
  0 ≤ t < FormatTime.first_wrong * Js.unit → 0 ≤ t' < FormatTime.first_wrong * Js.unit →
  (FormatTime.formatTime (Js.Num t) = FormatTime.formatTime (Js.Num t')
   ↔ Qfloor (Js.value t) = Qfloor (Js.value t')).
Proof.
  intros Hd Hd' [H0 Hlim] [H0' Hlim']. pose proof unit_pos as HU.
  rewrite !floor_value, (formatTime_form t Hd H0 Hlim), (formatTime_form t' Hd' H0' Hlim').
  assert (Hn : 0 ≤ t / Js.unit) by (apply Z.div_pos; lia).
  assert (Hn' : 0 ≤ t' / Js.unit) by (apply Z.div_pos; lia).
  split; [| intros ->; reflexivity].
  intros E. apply split_at_colon in E as [Em Er].
  - apply digits_inj in Em. apply pad_inj in Er; try (apply Z.mod_pos_bound; lia).
    rewrite (Z.div_mod (t / Js.unit) 60), (Z.div_mod (t' / Js.unit) 60) by lia. congruence.
  - apply digits_no_colon, Z.div_pos; lia.
  - apply digits_no_colon, Z.div_pos; lia.
Qed.

Lemma formatTime_whole_seconds_witness :
  let t := 131 * 2 ^ 1073 in
  let t' := 65 * 2 ^ 1074 in
  Js.is_double t ∧ Js.is_double t'
  ∧ 0 ≤ t < FormatTime.first_wrong * Js.unit ∧ 0 ≤ t' < FormatTime.first_wrong * Js.unit
  ∧ Qfloor (Js.value t) = Qfloor (Js.value t')
  ∧ FormatTime.formatTime (Js.Num t) = FormatTime.formatTime (Js.Num t').
Proof.
  intros t t'.
  assert (H1 : Js.is_double t) by (exists 131, 1073; split; [lia | split; vm_compute; reflexivity]).
  assert (H2 : Js.is_double t') by (exists 65, 1074; split; [lia | split; vm_compute; reflexivity]).
  assert (H3 : 0 ≤ t < FormatTime.first_wrong * Js.unit)
    by (split; [vm_compute; discriminate | vm_compute; reflexivity]).
  assert (H4 : 0 ≤ t' < FormatTime.first_wrong * Js.unit)
    by (split; [vm_compute; discriminate | vm_compute; reflexivity]).
  assert (H5 : Qfloor (Js.value t) = Qfloor (Js.value t')) by (vm_compute; reflexivity).
  repeat (split; [assumption |]).
  exact (proj2 (formatTime_whole_seconds t t' H1 H2 H3 H4) H5).
Defined.

(** X17.  A negative duration (above -60 * 2^50 seconds) is not formatted as
    minutes and seconds.  The minutes are rounded down and the remainder keeps
    the sign of the duration: the result is [floor (s / 60)], which is
    negative, a colon, the character 0 and the remainder, which lies between
    -60 and 0; it starts with a minus sign.  The thirty negative doubles
    closest to zero are the exception: their quotient by 60 is rounded to
    zero, and the result is 0:0-1. *)
Theorem formatTime_negative (t : Z) :
  Js.is_double t → - (FormatTime.limit * Js.unit) < t < 0 →
  let s := Js.value t in
  let m := Qfloor (s / 60) in
  let r := Qfloor s + 60 * (Qfloor (- s) `div` 60) in
  -60 ≤ r ≤ 0 ∧ m < 0
  ∧ (t < -30 →
       FormatTime.formatTime (Js.Num t) = (Js.digits m ++ ":0" ++ Js.digits r)%string
       ∧ String.get 0 (FormatTime.formatTime (Js.Num t)) = Some "-"%char)
  ∧ (-30 ≤ t → FormatTime.formatTime (Js.Num t) = "0:0-1"%string).
Proof.
  intros Hd [Hlim Hneg] s m r. pose proof unit_pos as HU.
  assert (Hfs : Qfloor s = t / Js.unit) by apply floor_value.
  assert (Hfo : Qfloor (- s) = (- t) / Js.unit).
  { unfold s, Js.value, Qopp, Qfloor. cbn [Qnum Qden]. rewrite Z2Pos.id by lia. reflexivity. }
  assert (Hm : m = t / Js.unit / 60) by (unfold m; rewrite floor_div60, Hfs; reflexivity).
  assert (Hr : r = t / Js.unit + 60 * ((- t) / Js.unit / 60)) by (unfold r; rewrite Hfs, Hfo; reflexivity).
  assert (Hmneg : m < 0).
  { rewrite Hm, Z.div_div by lia. apply Z.div_lt_upper_bound; lia. }
  assert (Hrb : -60 ≤ r ≤ 0).
  { rewrite Hr.
    pose proof (Z.div_mod t Js.unit ltac:(lia)). pose proof (Z.mod_pos_bound t Js.unit HU).
    pose proof (Z.div_mod (- t) Js.unit ltac:(lia)). pose proof (Z.mod_pos_bound (- t) Js.unit HU).
    pose proof (Z.div_mod ((- t) / Js.unit) 60 ltac:(lia)).
    pose proof (Z.mod_pos_bound ((- t) / Js.unit) 60 ltac:(lia)).
    nia. }
  split; [exact Hrb |]. split; [exact Hmneg |]. split.
  - intros Hbig.
    assert (E : FormatTime.formatTime (Js.Num t) = (Js.digits m ++ ":0" ++ Js.digits r)%string).
    { unfold FormatTime.formatTime.
      rewrite (quotient_floor_neg t Hd Hbig Hlim), (remainder_floor_neg t ltac:(lia)).
      rewrite <- Hm, <- Hr.
      assert (Hm53 : Z.abs m < 2 ^ 53).
      { assert (- 2 ^ 50 ≤ t / (Js.unit * 60))
          by (apply Z.div_le_lower_bound; unfold FormatTime.limit in Hlim; nia).
        assert (m = t / (Js.unit * 60)) by (rewrite Hm; apply Z.div_div; lia).
        lia. }
      rewrite !toString_small by lia.
      unfold Js.lt. destruct (r <? 10) eqn:C; [reflexivity | apply Z.ltb_ge in C; lia]. }
    split; [exact E |]. rewrite E. destruct m as [| p | p]; try lia. reflexivity.
  - intros Hsmall.
    assert (Hcases : ∃ n : nat, (n < 30)%nat ∧ t = - Z.of_nat (S n)).
    { exists (Z.to_nat (- t - 1)). lia. }
    destruct Hcases as (n & Hn & ->).
    do 30 (destruct n as [| n]; [vm_compute; reflexivity |]). lia.
Qed.

Lemma formatTime_negative_witness :
  let t := -5 * 2 ^ 1074 in
  Js.is_double t ∧ - (FormatTime.limit * Js.unit) < t < 0 ∧ t < -30
  ∧ Js.literal (-5) = Js.Num t
  ∧ FormatTime.formatTime (Js.Num t) = "-1:0-5"%string.
Proof.
  intros t.
  assert (H1 : Js.is_double t) by (exists (-5), 1074; split; [lia | split; vm_compute; reflexivity]).
  assert (H2 : - (FormatTime.limit * Js.unit) < t < 0) by (split; vm_compute; reflexivity).
  assert (H3 : t < -30) by (vm_compute; reflexivity).
  split; [exact H1 |]. split; [exact H2 |]. split; [exact H3 |].
  split; [vm_compute; reflexivity |].
  pose proof (proj1 (proj1 (proj2 (proj2 (formatTime_negative t H1 H2))) H3)) as H.
  vm_compute in H |- *. exact H.
Defined.
